(** * Elevator service: the dispatch loop and call admission over a Redis store

    A shallow embedding of [service.py] (state accessors, [get_next_floor],
    [call], [go_to]) and of the request handlers of [main.py]
    ([go_to_floor], [go_up], [go_down]).

    The Python code is asynchronous, talks to Redis through [aioredis] and
    keeps one module-level flag, [once].  It is embedded here in a state and
    exception monad over a [World]: the Redis store, the flag, a schedule of
    store failures still to come, and the history of [hmset] writes to the
    'state' hash.  [asyncio.sleep] and logging touch none of these and are
    left out; one invocation of [call] or [go_to] runs without interleaving. *)

From Stdlib Require Import ZArith Lia List DecimalString DecimalPos DecimalZ.
From stdpp Require Import base option list sorting strings gmap.

Open Scope string_scope.
Open Scope list_scope.
Open Scope Z_scope.

(** ** Python values *)

(** [str(n)] for an integer, as stored by Redis for a numeric argument. *)
Definition py_str (n : Z) : string := NilZero.string_of_int (Z.to_int n).

(** [int(s)]: [None] stands for [ValueError].  Signed decimal numerals are
    read; the blanks, [+] sign and underscores Python also tolerates are not,
    which no string written by this program contains. *)
Definition py_int (s : string) : option Z := Z.of_int <$> NilZero.int_of_string s.

(** Truth value of an optional string argument or reply ([None], [''], [b'']
    are false). *)
Definition truthy (o : option string) : bool :=
  match o with
  | Some s => negb (String.eqb s "")
  | None => false
  end.

(** [range(a, b)] and [range(a, b, -1)]. *)
Definition range_up (a b : Z) : list Z :=
  map (fun i => a + Z.of_nat i) (seq 0 (Z.to_nat (b - a))).
Definition range_down (a b : Z) : list Z :=
  map (fun i => a - Z.of_nat i) (seq 0 (Z.to_nat (a - b))).

(** ** The Redis store *)

(** The Redis types other than hash, and what [TYPE] replies for them. *)
Inductive redis_type : Type := TString | TList | TSet | TZSet | TStream.

Definition type_name (ty : redis_type) : string :=
  match ty with
  | TString => "string"
  | TList => "list"
  | TSet => "set"
  | TZSet => "zset"
  | TStream => "stream"
  end.

(** The value under the key 'state'.  [get_current_state] inspects its type,
    so it may be a hash or a value of another type. *)
Inductive state_value : Type :=
  | StHash (h : gmap string string)
  | StOther (ty : redis_type).

(** The keys the service uses.  'up' and 'down' are sorted sets whose only
    writer is [add_floor], which stores member [floor_<n>] with score [n]:
    a sorted set is represented by its set of scores, and the member name
    [floor_<n>] by [n].  The hashes [floor_<n>] hold at most the field
    'intended_direction' and are represented by one map from [n]. *)
Record Redis : Type := mkRedis {
  k_state : option state_value;
  k_current_floor : option string;
  k_up : gset Z;
  k_down : gset Z;
  k_intended : gmap Z string
}.

Inductive exn : Type :=
  | RedisError
  | KeyError
  | ValueError
  | UnboundLocalError
  | HTTPException (status_code : Z).

Inductive result (A : Type) : Type :=
  | Ok (a : A)
  | Raise (e : exn).
Arguments Ok {A} a.
Arguments Raise {A} e.

(** [faults] schedules the outcome of the store commands still to be issued:
    a command whose turn reads [true] raises [RedisError] and has no effect.
    Once the schedule is used up the store is reliable.  [writes] records
    every successful [hmset] on 'state', oldest first. *)
Record World : Type := mkWorld {
  store : Redis;
  once : Z;
  faults : list bool;
  writes : list (gmap string string)
}.

Definition M (A : Type) : Type := World -> result A * World.

Definition ret {A} (a : A) : M A := fun w => (Ok a, w).
Definition raise {A} (e : exn) : M A := fun w => (Raise e, w).
Definition bind {A B} (m : M A) (k : A -> M B) : M B := fun w =>
  match m w with
  | (Ok a, w') => k a w'
  | (Raise e, w') => (Raise e, w')
  end.
(** [try: m except Exception as e: h e]. *)
Definition try_except {A} (m : M A) (h : exn -> M A) : M A := fun w =>
  match m w with
  | (Ok a, w') => (Ok a, w')
  | (Raise e, w') => h e w'
  end.

Declare Scope py_scope.
Delimit Scope py_scope with py.
Notation "x <- m ;; k" := (bind m (fun x => k))
  (at level 100, m at next level, right associativity) : py_scope.
Notation "m ;; k" := (bind m (fun _ => k))
  (at level 100, right associativity) : py_scope.
Open Scope py_scope.

Fixpoint for_each {A} (l : list A) (body : A -> M unit) : M unit :=
  match l with
  | [] => ret tt
  | x :: l' => body x ;; for_each l' body
  end.

Definition get_once : M Z := fun w => (Ok (once w), w).
Definition set_once (v : Z) : M unit := fun w =>
  (Ok tt, mkWorld (store w) v (faults w) (writes w)).

(** One store command: [f] is its effect on a working store. *)
Definition command {A} (f : Redis -> result A * Redis) : M A := fun w =>
  match faults w with
  | true :: fs => (Raise RedisError, mkWorld (store w) (once w) fs (writes w))
  | fs =>
      let '(r, s') := f (store w) in
      (r, mkWorld s' (once w) (tail fs) (writes w))
  end.

Definition log_write (d : gmap string string) : M unit := fun w =>
  (Ok tt, mkWorld (store w) (once w) (faults w) (writes w ++ [d])).

(** *** Commands on 'state' *)

Definition redis_type_state : M string :=
  command (fun s =>
    (Ok match k_state s with
        | None => "none"
        | Some (StHash _) => "hash"
        | Some (StOther ty) => type_name ty
        end, s)).

Definition redis_delete_state : M unit :=
  command (fun s =>
    (Ok tt, mkRedis None (k_current_floor s) (k_up s) (k_down s) (k_intended s))).

(** [HGETALL]: the empty dict for a missing key, [WRONGTYPE] for a key that
    is not a hash. *)
Definition redis_hgetall_state : M (gmap string string) :=
  command (fun s =>
    match k_state s with
    | None => (Ok ∅, s)
    | Some (StHash h) => (Ok h, s)
    | Some (StOther _) => (Raise RedisError, s)
    end).

(** [HMSET]: the given fields overwrite, the others stay. *)
Definition redis_hmset_state (d : gmap string string) : M unit :=
  command (fun s =>
    match k_state s with
    | Some (StOther _) => (Raise RedisError, s)
    | Some (StHash h) =>
        (Ok tt, mkRedis (Some (StHash (d ∪ h))) (k_current_floor s)
                        (k_up s) (k_down s) (k_intended s))
    | None =>
        (Ok tt, mkRedis (Some (StHash d)) (k_current_floor s)
                        (k_up s) (k_down s) (k_intended s))
    end).

(** *** Commands on 'current_floor' *)

Definition redis_get_current_floor : M (option string) :=
  command (fun s => (Ok (k_current_floor s), s)).

Definition redis_set_current_floor (v : string) : M unit :=
  command (fun s =>
    (Ok tt, mkRedis (k_state s) (Some v) (k_up s) (k_down s) (k_intended s))).

(** *** Commands on the sorted sets *)

Definition zset (key : string) (s : Redis) : gset Z :=
  if String.eqb key "up" then k_up s
  else if String.eqb key "down" then k_down s
  else ∅.

Definition with_zset (key : string) (q : gset Z) (s : Redis) : Redis :=
  if String.eqb key "up" then
    mkRedis (k_state s) (k_current_floor s) q (k_down s) (k_intended s)
  else if String.eqb key "down" then
    mkRedis (k_state s) (k_current_floor s) (k_up s) q (k_intended s)
  else s.

(** Members in ascending order of score. *)
Definition by_score (q : gset Z) : list Z := merge_sort Z.le (elements q).

(** [ZADD key {floor_<n>: n}]. *)
Definition redis_zadd (key : string) (n : Z) : M unit :=
  command (fun s => (Ok tt, with_zset key ({[n]} ∪ zset key s) s)).

(** [ZREM key floor_<n>]. *)
Definition redis_zrem (key : string) (n : Z) : M unit :=
  command (fun s => (Ok tt, with_zset key (zset key s ∖ {[n]}) s)).

(** [ZRANGEBYSCORE key lo +inf LIMIT start num]. *)
Definition redis_zrangebyscore (key : string) (lo : Z) (start num : nat)
  : M (list Z) :=
  command (fun s =>
    (Ok (take num (drop start
           (filter (fun m => lo <= m) (by_score (zset key s))))), s)).

(** [ZREVRANGEBYSCORE key hi lo LIMIT start num]. *)
Definition redis_zrevrangebyscore (key : string) (hi lo : Z) (start num : nat)
  : M (list Z) :=
  command (fun s =>
    (Ok (take num (drop start
           (filter (fun m => lo <= m <= hi) (reverse (by_score (zset key s)))))), s)).

(** [ZRANGE key 0 -1]. *)
Definition redis_zrange_all (key : string) : M (list Z) :=
  command (fun s => (Ok (by_score (zset key s)), s)).

(** *** Commands on the hashes [floor_<n>] *)

Definition redis_hget_intended (n : Z) : M (option string) :=
  command (fun s => (Ok (k_intended s !! n), s)).

Definition redis_hset_intended (n : Z) (d : string) : M unit :=
  command (fun s =>
    (Ok tt, mkRedis (k_state s) (k_current_floor s) (k_up s) (k_down s)
                    (<[n := d]> (k_intended s)))).

Definition redis_hdel_intended (n : Z) : M unit :=
  command (fun s =>
    (Ok tt, mkRedis (k_state s) (k_current_floor s) (k_up s) (k_down s)
                    (delete n (k_intended s)))).

(** ** service.py *)

(** The dict [{"floor": floor, "state": state}] as [hmset] stores it. *)
Definition state_dict (floor : Z) (state : string) : gmap string string :=
  {[ "floor" := py_str floor; "state" := state ]}.

Definition default_state : gmap string string := state_dict 1 "idle".

Definition set_current_state (state : gmap string string) : M unit :=
  redis_hmset_state state ;; log_write state.

Definition get_current_state : M (gmap string string) :=
  try_except
    (key_type <- redis_type_state ;;
     (if negb (String.eqb key_type "") && negb (String.eqb key_type "hash")
      then redis_delete_state
      else ret tt) ;;
     state <- redis_hgetall_state ;;
     if decide (state = ∅) then
       set_current_state default_state ;;
       ret default_state
     else ret state)
    (fun _ => ret default_state).

(** [x[key]] on a dict. *)
Definition subscript (d : gmap string string) (key : string) : M string :=
  match d !! key with
  | Some v => ret v
  | None => raise KeyError
  end.

Definition int_of (s : string) : M Z :=
  match py_int s with
  | Some n => ret n
  | None => raise ValueError
  end.

Definition get_current_floor : M Z :=
  current_floor <- redis_get_current_floor ;;
  match current_floor with
  | Some v => if truthy current_floor then int_of v else ret 1
  | None => ret 1
  end.

Definition set_current_floor (floor : Z) : M unit :=
  redis_set_current_floor (py_str floor).

Definition add_floor (direction : string) (floor : Z) : M unit :=
  redis_zadd direction floor.

(** The reply of the range query is a list of at most one member; a found
    member is removed from the sorted set before it is returned. *)
Definition take_first (direction : string) (next_floors : list Z) : M (option Z) :=
  match next_floors with
  | next_floor :: _ => redis_zrem direction next_floor ;; ret (Some next_floor)
  | [] => ret None
  end.

Definition get_next_floor (direction : string) (current_floor : Z) : M (option Z) :=
  if String.eqb direction "up" then
    next_floors <- redis_zrangebyscore direction current_floor 0 1 ;;
    take_first direction next_floors
  else if String.eqb direction "down" then
    next_floors <- redis_zrevrangebyscore direction current_floor 0 0 1 ;;
    take_first direction next_floors
  else ret None.

(** A local variable read before any assignment reached it. *)
Definition local {A} (v : option A) : M A :=
  match v with
  | Some a => ret a
  | None => raise UnboundLocalError
  end.

(** The [try] block of [call].  A call from outside (a direction is given)
    runs to the end of the block; a call from inside returns early when the
    elevator is at the floor.  The value is what [call] returns ([None] when
    it falls off its end). *)
Definition call_body (floor : Z) (direction : option string) : M (option string) :=
  current_floor <- get_current_floor ;;
  returned <-
    (if truthy direction then
       let pickup_queue :=
         if floor >? current_floor then Some "up"
         else if floor <? current_floor then Some "down"
         else None in
       q <- local pickup_queue ;;
       add_floor q floor ;;
       redis_hset_intended floor (default "" direction) ;;
       ret None
     else
       if current_floor =? floor then ret (Some "Already at the requested floor")
       else
         (if current_floor <? floor then add_floor "up" floor
          else add_floor "down" floor) ;;
         ret None) ;;
  match returned with
  | Some _ => ret returned
  | None =>
      redis_zrange_all "up" ;;
      redis_zrange_all "down" ;;
      ret None
  end.

(** [call(floor, direction=None)]. *)
Definition call (floor : Z) (direction : option string) : M (option string) :=
  set_once 0 ;;
  try_except (call_body floor direction) (fun e => raise e).

(** Lines 170-206 of [go_to]: the next floor, already removed from its
    sorted set, and the new direction. *)
Definition choose (current_direction : string) (current_floor : Z)
  : M (option Z * string) :=
  if String.eqb current_direction "up" then
    next_floor <- get_next_floor "up" current_floor ;;
    match next_floor with
    | Some _ => ret (next_floor, current_direction)
    | None =>
        next_floor <- get_next_floor "down" current_floor ;;
        ret (next_floor, match next_floor with Some _ => "down" | None => "idle" end)
    end
  else if String.eqb current_direction "down" then
    next_floor <- get_next_floor "down" current_floor ;;
    match next_floor with
    | Some _ => ret (next_floor, current_direction)
    | None =>
        next_floor <- get_next_floor "up" current_floor ;;
        ret (next_floor, match next_floor with Some _ => "up" | None => "idle" end)
    end
  else
    next_floor_up <- get_next_floor "up" current_floor ;;
    next_floor_down <- get_next_floor "down" current_floor ;;
    match next_floor_up, next_floor_down with
    | Some floor_up, Some floor_down =>
        if Z.abs (current_floor - floor_up) <=? Z.abs (current_floor - floor_down)
        then ret (next_floor_up, "up")
        else ret (next_floor_down, "down")
    | Some _, None => ret (next_floor_up, "up")
    | None, Some _ => ret (next_floor_down, "down")
    | None, None => ret (None, "idle")
    end.

(** Lines 213-232: the floor-by-floor motion and the write on reaching the
    target. *)
Definition travel (current_floor floor_number : Z) (new_direction : string) : M unit :=
  (if String.eqb new_direction "down" then
     for_each (range_down current_floor (floor_number - 1)) (fun fl =>
       set_current_floor fl ;;
       set_current_state (state_dict fl new_direction))
   else if String.eqb new_direction "up" then
     for_each (range_up current_floor (floor_number + 1)) (fun fl =>
       set_current_floor fl ;;
       set_current_state (state_dict fl new_direction))
   else ret tt) ;;
  set_current_state (state_dict floor_number new_direction) ;;
  set_current_floor floor_number.

(** Lines 236-243: the intended direction left by a call from outside. *)
Definition arrive (floor_number : Z) : M unit :=
  intended_direction <- redis_hget_intended floor_number ;;
  match intended_direction with
  | Some d =>
      if truthy intended_direction then
        redis_hdel_intended floor_number ;;
        set_current_state (state_dict floor_number d)
      else ret tt
  | None => ret tt
  end.

(** Lines 249-259: no floor to go to. *)
Definition settle (current_floor : Z) : M unit :=
  o <- get_once ;;
  if negb (o =? 1) then
    set_once 1 ;;
    set_current_state (state_dict current_floor "idle")
  else ret tt.

(** [go_to] once the state has been read. *)
Definition dispatch (current_floor : Z) (current_direction : string) : M unit :=
  chosen <- choose current_direction current_floor ;;
  let '(next_floor, new_direction) := chosen in
  match next_floor with
  | Some floor_number =>
      travel current_floor floor_number new_direction ;;
      arrive floor_number
  | None => settle current_floor
  end.

Definition go_to_body : M unit :=
  current_state <- get_current_state ;;
  floor_field <- subscript current_state "floor" ;;
  current_floor <- int_of floor_field ;;
  current_direction <- subscript current_state "state" ;;
  dispatch current_floor current_direction.

Definition go_to : M unit :=
  try_except go_to_body (fun e => raise e).

(** ** main.py *)

Definition MAX_FLOOR : Z := 20.

Definition submitted : string := "Request submitted successfully".

(** [POST /go/{floor}]: [HTTPException] passes, any other exception becomes
    status 500. *)
Definition go_to_floor (floor : Z) : M string :=
  try_except
    ((if (floor >? MAX_FLOOR) || (floor <? 1)
      then raise (HTTPException 400) else ret tt) ;;
     (if floor <? 1 then raise (HTTPException 400) else ret tt) ;;
     call floor None ;;
     ret submitted)
    (fun e =>
       match e with
       | HTTPException _ => raise e
       | _ => raise (HTTPException 500)
       end).

(** [POST /{floor}/up] and [POST /{floor}/down]: every exception, the
    handler's own [HTTPException] included, becomes status 500. *)
Definition hall (floor : Z) (direction : string) : M string :=
  try_except
    ((if floor <? 1 then raise (HTTPException 400) else ret tt) ;;
     call floor (Some direction) ;;
     ret submitted)
    (fun _ => raise (HTTPException 500)).

Definition go_up (floor : Z) : M string := hall floor "up".
Definition go_down (floor : Z) : M string := hall floor "down".

(** ** Running the service *)

(** The world a command leaves behind, and its outcome. *)
Definition after {A} (m : M A) (w : World) : World := snd (m w).
Definition outcome {A} (m : M A) (w : World) : result A := fst (m w).

(** [n] rounds of the simulation loop of [run_elevator_simulation], as long
    as none raises. *)
Fixpoint ticks (n : nat) (w : World) : World :=
  match n with
  | O => w
  | S n' => ticks n' (after go_to w)
  end.

Definition redis0 : Redis := mkRedis None None ∅ ∅ ∅.
Definition world0 : World := mkWorld redis0 0 [] [].

(** A store holding the elevator at [floor] in [state]. *)
Definition redis_at (floor : Z) (state : string) (up down : gset Z)
    (intended : gmap Z string) : Redis :=
  mkRedis (Some (StHash (state_dict floor state))) (Some (py_str floor))
          up down intended.

(** ** Vocabulary of the statements *)

(** *** What the service reads from the store *)

(** What [go_to] reads as current floor and direction from a stored hash
    (lines 166-168). *)
Definition elevator_state (s : Redis) : option (Z * string) :=
  match k_state s with
  | Some (StHash h) =>
      match h !! "floor", h !! "state" with
      | Some f, Some d => (fun n => (n, d)) <$> py_int f
      | _, _ => None
      end
  | _ => None
  end.

(** What [get_current_floor] reads. *)
Definition current_floor_of (s : Redis) : option Z :=
  match k_current_floor s with
  | Some v => if truthy (Some v) then py_int v else Some 1
  | None => Some 1
  end.

(** The fields of the hash under 'state'; none when the key is missing. *)
Definition hash_of (v : option state_value) : gmap string string :=
  match v with
  | Some (StHash h) => h
  | _ => ∅
  end.

Definition is_hash_or_missing (v : option state_value) : Prop :=
  match v with
  | Some (StOther _) => False
  | _ => True
  end.

(** The world a tick works on once it has read the state (line 166). *)
Definition read (w : World) : World := after get_current_state w.

(** *** Stores and worlds that differ in one place *)

Definition set_store (s : Redis) (w : World) : World :=
  mkWorld s (once w) (faults w) (writes w).

Definition set_queues (up down : gset Z) (s : Redis) : Redis :=
  mkRedis (k_state s) (k_current_floor s) up down (k_intended s).

Definition set_state_hash (h : gmap string string) (s : Redis) : Redis :=
  mkRedis (Some (StHash h)) (k_current_floor s) (k_up s) (k_down s) (k_intended s).

(** *** The floors the scheduler looks for *)

(** The member the scheduler looks for in 'up': the first one from
    [current_floor] upward. *)
Definition nearest_up (q : gset Z) (current_floor : Z) : option Z :=
  head (filter (fun m => current_floor <= m) (by_score q)).

(** The member it looks for in 'down': the first one from [current_floor]
    downward, not below score 0. *)
Definition nearest_down (q : gset Z) (current_floor : Z) : option Z :=
  head (filter (fun m => 0 <= m <= current_floor) (reverse (by_score q))).

(** The smallest member at or above [from], if there is one. *)
Definition smallest_from (q : gset Z) (from : Z) (o : option Z) : Prop :=
  match o with
  | Some t => t ∈ q ∧ from <= t ∧ ∀ m, m ∈ q → from <= m → t <= m
  | None => ∀ m, m ∈ q → m < from
  end.

(** The largest member at or below [from], if there is one. *)
Definition largest_upto (q : gset Z) (from : Z) (o : option Z) : Prop :=
  match o with
  | Some t => t ∈ q ∧ t <= from ∧ ∀ m, m ∈ q → m <= from → m <= t
  | None => ∀ m, m ∈ q → from < m
  end.

(** What [choose] computes from the two sorted sets when no command fails:
    the next floor, the new direction, and the two sets it leaves. *)
Definition selection (current_direction : string) (current_floor : Z)
    (up down : gset Z) : (option Z * string) * (gset Z * gset Z) :=
  if String.eqb current_direction "up" then
    match nearest_up up current_floor with
    | Some t => ((Some t, current_direction), (up ∖ {[t]}, down))
    | None =>
        match nearest_down down current_floor with
        | Some t => ((Some t, "down"), (up, down ∖ {[t]}))
        | None => ((None, "idle"), (up, down))
        end
    end
  else if String.eqb current_direction "down" then
    match nearest_down down current_floor with
    | Some t => ((Some t, current_direction), (up, down ∖ {[t]}))
    | None =>
        match nearest_up up current_floor with
        | Some t => ((Some t, "up"), (up ∖ {[t]}, down))
        | None => ((None, "idle"), (up, down))
        end
    end
  else
    match nearest_up up current_floor, nearest_down down current_floor with
    | Some u, Some d =>
        (if Z.abs (current_floor - u) <=? Z.abs (current_floor - d)
         then (Some u, "up") else (Some d, "down"),
         (up ∖ {[u]}, down ∖ {[d]}))
    | Some u, None => ((Some u, "up"), (up ∖ {[u]}, down))
    | None, Some d => ((Some d, "down"), (up, down ∖ {[d]}))
    | None, None => ((None, "idle"), (up, down))
    end.

(** The reversal property with the premise that the down queue is merely
    non-empty. *)
Definition reversal_on_nonempty_down (w : World) (current_floor : Z) : Prop :=
  faults w = [] →
  (∀ m, m ∈ k_up (store w) → m < current_floor) →
  (∀ m, m ∈ k_down (store w) → 0 <= m) →
  k_down (store w) ≠ ∅ →
  ∃ t, outcome (choose "up" current_floor) w = Ok (Some t, "down") ∧
       largest_upto (k_down (store w)) current_floor (Some t).

(** *** Invariants and failures *)

(** [m] keeps [Q] true of the store and the flag, on every path. *)
Definition preserves (Q : Redis → Z → Prop) {A} (m : M A) : Prop :=
  ∀ w, Q (store w) (once w) → Q (store (after m w)) (once (after m w)).

(** Every member of either queue is a floor number, 1 or more. *)
Definition floors_positive (s : Redis) : Prop :=
  ∀ m, m ∈ k_up s ∨ m ∈ k_down s → 1 <= m.

(** No intended direction on record is the empty string. *)
Definition intended_nonempty (s : Redis) : Prop :=
  ∀ f d, k_intended s !! f = Some d → d ≠ "".



(** [serves w w']: [w'] is reached from [w] by ticks on a reliable store
    that each found a floor to go to. *)
Inductive serves : World → World → Prop :=
  | serves_none w : serves w w
  | serves_tick w cf dir t nd w' :
      faults w = [] →
      elevator_state (store (read w)) = Some (cf, dir) →
      outcome (choose dir cf) (read w) = Ok (Some t, nd) →
      serves (after go_to w) w' →
      serves w w'.

(** *** Worlds used as examples *)

Definition world_5_idle : World := mkWorld (redis_at 5 "idle" {[8]} {[3]} ∅) 0 [] [].

Definition world_5_up_below_9 : World :=
  mkWorld (redis_at 5 "up" ∅ {[9]} ∅) 0 [] [].

Definition world_5_up_above_3 : World :=
  mkWorld (redis_at 5 "up" {[2]} {[1; 3; 9]} ∅) 0 [] [].


Definition world_settled : World := mkWorld (redis_at 5 "idle" ∅ ∅ ∅) 1 [] [].

Definition world_7_up_to_10 : World :=
  mkWorld (redis_at 7 "up" {[10; 12]} ∅ {[10 := "down"]}) 0 [] [].

Definition world_drifted : World :=
  mkWorld (mkRedis (Some (StOther TString)) None ∅ ∅ ∅) 0 [] [].


(** ** main.py, the other handlers *)

(** [GET /state]: any exception of the read becomes status 500. *)
Definition get_state : M (gmap string string) :=
  try_except get_current_state (fun _ => raise (HTTPException 500)).

(** [GET /floor]; the value is the floor of the answer
    [{"current_floor": floor}]. *)
Definition current_floor : M Z :=
  try_except get_current_floor (fun _ => raise (HTTPException 500)).

(** The server process: the world and the module-level flag
    [simulation_running] of [main.py]. *)
Record Server : Type := mkServer {
  world : World;
  simulation_running : bool
}.

(** [GET /simulation/status]. *)
Definition simulation_status (s : Server) : bool := simulation_running s.

(** [POST /simulation/stop]. *)
Definition stop_simulation (s : Server) : string * Server :=
  if negb (simulation_running s) then ("Simulation is not running", s)
  else ("Elevator simulation stopping...", mkServer (world s) false).

(** The [while] loop of [run_elevator_simulation] with its [except] and
    [finally] clauses.  The loop has no end of its own, so it is run for a
    list of rounds; each round says whether [POST /simulation/stop] is served
    while the round's [go_to] and pause are under way.  The flag is read at
    the head of every round only.  When the rounds are used up the loop is
    left where it stands. *)
Fixpoint simulation_loop (rounds : list bool) (s : Server) : Server :=
  match rounds with
  | [] => s
  | stop :: rest =>
      if simulation_running s then
        match go_to (world s) with
        | (Ok _, w') =>
            let s' := mkServer w' (simulation_running s) in
            simulation_loop rest (if stop then snd (stop_simulation s') else s')
        | (Raise _, w') => mkServer w' false
        end
      else mkServer (world s) false
  end.

Definition run_elevator_simulation (rounds : list bool) (s : Server) : Server :=
  simulation_loop rounds (mkServer (world s) true).

(** *** Vocabulary of the further statements *)

(** Every exception [m] can raise satisfies [P]. *)
Definition raises_only (P : exn → Prop) {A} (m : M A) : Prop :=
  ∀ w e, outcome m w = Raise e → P e.

(** The floors the loops of [travel] run through (lines 214 and 223). *)
Definition path (current_floor floor_number : Z) (new_direction : string) : list Z :=
  if String.eqb new_direction "down" then range_down current_floor (floor_number - 1)
  else if String.eqb new_direction "up" then range_up current_floor (floor_number + 1)
  else [].

Definition world_2_with_garbage : World :=
  mkWorld (mkRedis (Some (StHash {[ "floor" := "2"; "state" := "up"; "door" := "open" ]}))
                   (Some "2") ∅ ∅ ∅) 0 [] [].


(** The store once the cab is recorded at floor [fl] with direction [d], in
    'state' and in 'current_floor'. *)
Definition at_floor (fl : Z) (d : string) (s : Redis) : Redis :=
  mkRedis (Some (StHash (state_dict fl d ∪ hash_of (k_state s)))) (Some (py_str fl))
          (k_up s) (k_down s) (k_intended s).

(** The store without the intended direction of floor [t]. *)
Definition forget (t : Z) (s : Redis) : Redis :=
  mkRedis (k_state s) (k_current_floor s) (k_up s) (k_down s) (delete t (k_intended s)).

(** The direction the cab shows after arriving at [t] under direction [nd]. *)
Definition direction_on_arrival (nd : string) (t : Z) (s : Redis) : string :=
  if truthy (k_intended s !! t) then default nd (k_intended s !! t) else nd.

(** Requests handled one after the other, none overlapping a tick. *)
Inductive request : Type :=
  | Go (floor : Z)
  | Up (floor : Z)
  | Down (floor : Z)
  | Tick.

Definition serve (r : request) (w : World) : World :=
  match r with
  | Go floor => after (go_to_floor floor) w
  | Up floor => after (go_up floor) w
  | Down floor => after (go_down floor) w
  | Tick => after go_to w
  end.

Definition serve_all (rs : list request) (w : World) : World :=
  foldl (fun w r => serve r w) w rs.

(** Where the cab is and what it shows, as a tick will read it: the defaults
    when no state is stored. *)
Definition cab (s : Redis) : option (Z * string) :=
  match k_state s with
  | None => Some (1, "idle")
  | _ => elevator_state s
  end.

(** The two records of the cab's floor agree on a floor from 1 upward, the
    direction shown is 'up', 'down' or 'idle', the queues hold floors from 1
    upward and the directions on record are 'up' or 'down'. *)
Definition consistent (s : Redis) : Prop :=
  (∃ cf d, cab s = Some (cf, d) ∧ current_floor_of s = Some cf ∧ 1 <= cf ∧
           (d = "up" ∨ d = "down" ∨ d = "idle")) ∧
  floors_positive s ∧
  (∀ f d, k_intended s !! f = Some d → d = "up" ∨ d = "down").

(** *** Further example worlds *)


Definition world_5_up_scan : World :=
  mkWorld (redis_at 5 "up" {[3; 7; 12]} {[4]} ∅) 0 [] [].

Definition world_3_down_exhausted : World :=
  mkWorld (redis_at 3 "down" {[8]} ∅ ∅) 0 [] [].


Definition world_4_up_failing_write : World :=
  mkWorld (redis_at 4 "up" ∅ ∅ ∅) 0 [false; false; false; false; true] [].

Definition world_5_up_failing_travel : World :=
  mkWorld (redis_at 5 "up" {[8]} ∅ ∅) 0 [false; false; false; false; true] [].

(** * Properties *)

(** ** Python values *)

Lemma py_int_str (n : Z) : py_int (py_str n) = Some n.
Proof.
  unfold py_int, py_str.
  rewrite NilZero.isi.
  - simpl. by rewrite DecimalZ.of_to.
  - destruct n; simpl; [done| |done].
    intros [= H]. by apply DecimalPos.Unsigned.to_uint_nonnil in H.
  - destruct n; simpl; [done|done|].
    intros [= H]. by apply DecimalPos.Unsigned.to_uint_nonnil in H.
Qed.

Lemma truthy_Some (d : string) : truthy (Some d) = true ↔ d ≠ "".
Proof.
  simpl. destruct (String.eqb_spec d ""); simpl; split; congruence.
Qed.

(** ** Range queries on a sorted set *)

Section first_of_sorted.
Context {A : Type} (R : relation A) `{!Reflexive R}.
Context (P : A → Prop) `{!∀ x, Decision (P x)}.

Lemma filter_sorted_first (l : list A) x t :
  StronglySorted R l → filter P l = x :: t →
  x ∈ l ∧ P x ∧ ∀ y, y ∈ l → P y → R x y.
Proof.
  induction 1 as [|a l Hs IH Hall]; [done|].
  rewrite filter_cons. case_decide as Ha.
  - intros [= -> _]. split_and!; [left | done |].
    intros y [->|Hy]%elem_of_cons _; [done|].
    rewrite Forall_forall in Hall. by apply Hall.
  - intros Hf. destruct (IH Hf) as (Hin & HP & Hmin).
    split_and!; [by right | done |].
    intros y [->|Hy]%elem_of_cons Py; [done | by apply Hmin].
Qed.
End first_of_sorted.

Lemma by_score_sorted (q : gset Z) : StronglySorted Z.le (by_score q).
Proof. apply StronglySorted_merge_sort; apply _. Qed.

Lemma by_score_rev_sorted (q : gset Z) :
  StronglySorted (flip Z.le) (reverse (by_score q)).
Proof.
  apply Sorted_StronglySorted; [apply _|].
  apply Sorted_reverse, StronglySorted_Sorted, by_score_sorted.
Qed.

Lemma elem_of_by_score (q : gset Z) m : m ∈ by_score q ↔ m ∈ q.
Proof.
  unfold by_score. by rewrite merge_sort_Permutation, elem_of_elements.
Qed.

Lemma nearest_up_spec q cf : smallest_from q cf (nearest_up q cf).
Proof.
  unfold nearest_up.
  destruct (filter _ (by_score q)) as [|x t] eqn:Hf; simpl.
  - intros m Hm. apply Z.nle_gt. intros Hle.
    by eapply (filter_nil_not_elem_of _ _ m Hf), elem_of_by_score.
  - apply (filter_sorted_first Z.le) in Hf as (Hin & Hle & Hmin);
      [|apply by_score_sorted].
    split_and!; [by apply elem_of_by_score | done |].
    intros m Hm. apply Hmin. by apply elem_of_by_score.
Qed.

Lemma nearest_down_spec q cf :
  (∀ m, m ∈ q → 0 <= m) → largest_upto q cf (nearest_down q cf).
Proof.
  intros Hpos. unfold nearest_down.
  destruct (filter _ (reverse (by_score q))) as [|x t] eqn:Hf; simpl.
  - intros m Hm. apply Z.nle_gt. intros Hle.
    eapply (filter_nil_not_elem_of _ _ m Hf); [by auto|].
    by apply elem_of_reverse, elem_of_by_score.
  - apply (filter_sorted_first (flip Z.le)) in Hf as (Hin & Hle & Hmin);
      [|apply by_score_rev_sorted].
    apply elem_of_reverse, elem_of_by_score in Hin.
    split_and!; [done | lia |].
    intros m Hm Hm'. apply Hmin; [|by auto].
    by apply elem_of_reverse, elem_of_by_score.
Qed.

(** ** The scheduler on a reliable store *)

Ltac reliable w :=
  let s := fresh "s" in
  destruct w as [s ? ? ?]; destruct s; simpl in *; subst.

Ltac run :=
  unfold redis_zrangebyscore, redis_zrevrangebyscore, redis_zrem, redis_zadd,
    redis_zrange_all, redis_hget_intended, redis_hset_intended,
    redis_hdel_intended, redis_get_current_floor, redis_set_current_floor,
    redis_type_state, redis_delete_state, redis_hgetall_state,
    redis_hmset_state, log_write, get_once, set_once,
    take_first, command, bind, ret, raise, try_except,
    zset, with_zset, set_store, set_queues; simpl.

Lemma get_next_floor_up cf w :
  faults w = [] →
  get_next_floor "up" cf w =
  match nearest_up (k_up (store w)) cf with
  | Some t =>
      (Ok (Some t),
       set_store (set_queues (k_up (store w) ∖ {[t]}) (k_down (store w)) (store w)) w)
  | None => (Ok None, w)
  end.
Proof.
  intros Hw. reliable w. unfold nearest_up, get_next_floor. run.
  destruct (filter _ _) as [|x t]; reflexivity.
Qed.

Lemma get_next_floor_down cf w :
  faults w = [] →
  get_next_floor "down" cf w =
  match nearest_down (k_down (store w)) cf with
  | Some t =>
      (Ok (Some t),
       set_store (set_queues (k_up (store w)) (k_down (store w) ∖ {[t]}) (store w)) w)
  | None => (Ok None, w)
  end.
Proof.
  intros Hw. reliable w. unfold nearest_down, get_next_floor. run.
  destruct (filter _ _) as [|x t]; reflexivity.
Qed.

Lemma choose_reliable dir cf w :
  faults w = [] →
  choose dir cf w =
  let sel := selection dir cf (k_up (store w)) (k_down (store w)) in
  (Ok sel.1, set_store (set_queues sel.2.1 sel.2.2 (store w)) w).
Proof.
  intros Hw. unfold choose, selection.
  destruct (String.eqb dir "up"); [|destruct (String.eqb dir "down")].
  - unfold bind at 1. rewrite get_next_floor_up by done.
    destruct (nearest_up _ _); [by reliable w|].
    unfold bind at 1. rewrite get_next_floor_down by done.
    destruct (nearest_down _ _); by reliable w.
  - unfold bind at 1. rewrite get_next_floor_down by done.
    destruct (nearest_down _ _); [by reliable w|].
    unfold bind at 1. rewrite get_next_floor_up by done.
    destruct (nearest_up _ _); by reliable w.
  - unfold bind at 1. rewrite get_next_floor_up by done.
    destruct (nearest_up _ _) as [u|].
    + unfold bind at 1. rewrite get_next_floor_down by (by reliable w).
      reliable w. destruct (nearest_down _ _) as [d|]; [|done].
      unfold ret. by destruct (_ <=? _).
    + unfold bind at 1. rewrite get_next_floor_down by done.
      reliable w. by destruct (nearest_down _ _).
Qed.

Lemma smallest_from_unique q cf o1 o2 :
  smallest_from q cf o1 → smallest_from q cf o2 → o1 = o2.
Proof.
  destruct o1 as [a|], o2 as [b|]; simpl; try done.
  - intros (Ha & Hla & Hma) (Hb & Hlb & Hmb).
    f_equal. apply Z.le_antisymm; auto.
  - intros (Ha & Hla & _) Hnone. specialize (Hnone a Ha). lia.
  - intros Hnone (Hb & Hlb & _). specialize (Hnone b Hb). lia.
Qed.

Lemma largest_upto_unique q cf o1 o2 :
  largest_upto q cf o1 → largest_upto q cf o2 → o1 = o2.
Proof.
  destruct o1 as [a|], o2 as [b|]; simpl; try done.
  - intros (Ha & Hla & Hma) (Hb & Hlb & Hmb).
    f_equal. apply Z.le_antisymm; auto.
  - intros (Ha & Hla & _) Hnone. specialize (Hnone a Ha). lia.
  - intros Hnone (Hb & Hlb & _). specialize (Hnone b Hb). lia.
Qed.

(** ** Target selection when idle *)

(** C2. On a tick whose direction is neither 'up' nor 'down' (so 'idle'),
    with [up_candidate] the smallest member of the up queue at or above the
    current floor and [down_candidate] the largest member of the down queue
    at or below it: if both exist the one at the smaller distance is selected
    and an equal distance selects the up one; if one exists it is selected
    with its direction; if none exists there is no target and the direction
    is 'idle'. *)
Theorem idle_tick_selection (w : World) (current_direction : string)
    (current_floor : Z) (up_candidate down_candidate : option Z) :
  faults w = [] →
  current_direction ≠ "up" → current_direction ≠ "down" →
  (∀ m, m ∈ k_down (store w) → 0 <= m) →
  smallest_from (k_up (store w)) current_floor up_candidate →
  largest_upto (k_down (store w)) current_floor down_candidate →
  outcome (choose current_direction current_floor) w =
    Ok match up_candidate, down_candidate with
       | Some u, Some d =>
           if decide (Z.abs (current_floor - u) <= Z.abs (current_floor - d))
           then (Some u, "up") else (Some d, "down")
       | Some u, None => (Some u, "up")
       | None, Some d => (Some d, "down")
       | None, None => (None, "idle")
       end.
Proof.
  intros Hw Hup Hdown Hpos Hu Hd.
  unfold outcome. rewrite choose_reliable by done. simpl.
  unfold selection.
  destruct (String.eqb_spec current_direction "up"); [done|].
  destruct (String.eqb_spec current_direction "down"); [done|].
  rewrite (smallest_from_unique _ _ _ _ Hu (nearest_up_spec _ _)).
  rewrite (largest_upto_unique _ _ _ _ Hd (nearest_down_spec _ _ Hpos)).
  destruct (nearest_up _ _) as [u|], (nearest_down _ _) as [d|]; simpl; try done.
  destruct (Z.leb_spec (Z.abs (current_floor - u)) (Z.abs (current_floor - d)));
    case_decide; (done || lia).
Qed.

Lemma idle_tick_selection_witness :
  outcome (choose "idle" 5) world_5_idle = Ok (Some 3, "down").
Proof.
  apply (idle_tick_selection world_5_idle "idle" 5 (Some 8) (Some 3)).
  - reflexivity.
  - discriminate.
  - discriminate.
  - simpl. intros m ->%elem_of_singleton. lia.
  - simpl. split_and!; [by apply elem_of_singleton | lia |].
    intros m ->%elem_of_singleton. lia.
  - simpl. split_and!; [by apply elem_of_singleton | lia |].
    intros m ->%elem_of_singleton. lia.
Defined.

(** ** Selection removes the selected floor *)

(** While moving, [choose] removes the floor it selects from the sorted set
    it found it in and nothing else. *)
Lemma moving_selection_frame (w : World) (dir : string) (cf : Z) :
  faults w = [] → dir = "up" ∨ dir = "down" →
  let w' := after (choose dir cf) w in
  match outcome (choose dir cf) w with
  | Ok (Some t, nd) =>
      (nd = "up" ∧ t ∈ k_up (store w) ∧
       k_up (store w') = k_up (store w) ∖ {[t]} ∧
       k_down (store w') = k_down (store w)) ∨
      (nd = "down" ∧ t ∈ k_down (store w) ∧
       k_down (store w') = k_down (store w) ∖ {[t]} ∧
       k_up (store w') = k_up (store w))
  | Ok (None, _) => w' = w
  | Raise _ => False
  end.
Proof.
  intros Hw Hdir. unfold after, outcome.
  rewrite choose_reliable by done. unfold selection.
  pose proof (nearest_up_spec (k_up (store w)) cf) as Hu.
  assert (∀ t, nearest_down (k_down (store w)) cf = Some t →
               t ∈ k_down (store w)) as Hd.
  { unfold nearest_down. intros t Ht.
    destruct (filter _ _) as [|x l] eqn:Hf; simplify_eq/=.
    apply (filter_sorted_first (flip Z.le)) in Hf as (Hin & _);
      [|apply by_score_rev_sorted].
    by apply elem_of_reverse, elem_of_by_score in Hin. }
  destruct Hdir as [-> | ->]; simpl.
  - destruct (nearest_up _ _) as [t|]; simpl.
    { left. by destruct Hu as (? & _). }
    destruct (nearest_down _ _) as [t|] eqn:Hn; simpl.
    { right. auto. }
    by reliable w.
  - destruct (nearest_down _ _) as [t|] eqn:Hn; simpl.
    { right. auto. }
    destruct (nearest_up _ _) as [t|]; simpl.
    { left. by destruct Hu as (? & _). }
    by reliable w.
Qed.

(** When idle with a candidate on each side, [choose] has removed both
    candidates by the time it compares them. *)
Lemma idle_selection_removes_both (w : World) (dir : string) (cf u d : Z) :
  faults w = [] → dir ≠ "up" → dir ≠ "down" →
  nearest_up (k_up (store w)) cf = Some u →
  nearest_down (k_down (store w)) cf = Some d →
  let w' := after (choose dir cf) w in
  k_up (store w') = k_up (store w) ∖ {[u]} ∧
  k_down (store w') = k_down (store w) ∖ {[d]}.
Proof.
  intros Hw Hup Hdown Hu Hd. unfold after.
  rewrite choose_reliable by done. unfold selection.
  destruct (String.eqb_spec dir "up"); [done|].
  destruct (String.eqb_spec dir "down"); [done|].
  by rewrite Hu, Hd.
Qed.

(** C1, evaluated: idle at floor 5 with 8 in the up queue and 3 in the
    down queue, the tick selects 3 and travels down to it, and 8 is gone from
    the up queue all the same: after the tick both queues are empty and the
    next tick finds no floor to go to.  Starting from the two calls that fill
    the queues (from floor 8 going up, from floor 3 going down), three ticks
    leave the elevator idle at floor 3 with the call from floor 8 unserved,
    its intended direction still on record. *)
Theorem idle_tick_loses_unchosen_candidate :
  outcome (choose "idle" 5) world_5_idle = Ok (Some 3, "down") ∧
  8 ∈ k_up (store world_5_idle) ∧
  (8 ∉ k_up (store (after (choose "idle" 5) world_5_idle))) ∧
  outcome go_to world_5_idle = Ok tt ∧
  k_current_floor (store (after go_to world_5_idle)) = Some "3" ∧
  k_up (store (after go_to world_5_idle)) = ∅ ∧
  k_down (store (after go_to world_5_idle)) = ∅ ∧
  outcome (choose "down" 3) (after go_to world_5_idle) = Ok (None, "idle") ∧
  let called := after (call 3 (Some "down")) (after (call 8 (Some "up")) world_settled) in
  k_up (store called) = {[8]} ∧
  k_down (store called) = {[3]} ∧
  elevator_state (store (ticks 3 called)) = Some (3, "idle") ∧
  k_up (store (ticks 3 called)) = ∅ ∧
  k_intended (store (ticks 3 called)) !! 8 = Some "up".
Proof.
  cbv zeta. split_and!; try (vm_compute; reflexivity).
  vm_compute. discriminate.
Qed.

(** ** Reversal at the top of an upward leg *)

(** C5 as stated fails: moving up at floor 5 with the up queue empty and the
    down queue holding 9, no target is selected and the direction becomes
    'idle', not 'down'. *)
Lemma reversal_on_nonempty_down_fails :
  outcome (choose "up" 5) world_5_up_below_9 = Ok (None, "idle") ∧
  ¬ reversal_on_nonempty_down world_5_up_below_9 5.
Proof.
  assert (outcome (choose "up" 5) world_5_up_below_9 = Ok (None, "idle")) as E
    by (vm_compute; reflexivity).
  split; [done|].
  intros H. destruct H as (t & Ht & _).
  - reflexivity.
  - simpl. intros m Hm. by apply not_elem_of_empty in Hm.
  - simpl. intros m ->%elem_of_singleton. lia.
  - simpl. intros Hempty.
    apply (not_elem_of_empty (C:=gset Z) 9). rewrite <- Hempty.
    by apply elem_of_singleton.
  - rewrite E in Ht. discriminate.
Qed.

(** C5, amended. On a tick with direction 'up', if the up queue has no
    member at or above the current floor and the down queue has a member at
    or below it, the selection switches the direction to 'down' and the
    target is the largest member of the down queue at or below the current
    floor; that member, and nothing else, leaves the down queue. *)
Theorem reversal_when_up_exhausted (w : World) (current_floor : Z) :
  faults w = [] →
  (∀ m, m ∈ k_up (store w) → m < current_floor) →
  (∀ m, m ∈ k_down (store w) → 0 <= m) →
  (∃ m, m ∈ k_down (store w) ∧ m <= current_floor) →
  ∃ t, outcome (choose "up" current_floor) w = Ok (Some t, "down") ∧
       largest_upto (k_down (store w)) current_floor (Some t) ∧
       k_down (store (after (choose "up" current_floor) w))
         = k_down (store w) ∖ {[t]} ∧
       k_up (store (after (choose "up" current_floor) w)) = k_up (store w).
Proof.
  intros Hw Hup Hpos (m & Hm & Hle).
  unfold outcome, after. rewrite choose_reliable by done.
  unfold selection. simpl.
  pose proof (nearest_up_spec (k_up (store w)) current_floor) as Hu.
  pose proof (nearest_down_spec (k_down (store w)) current_floor Hpos) as Hd.
  destruct (nearest_up _ _) as [u|].
  { destruct Hu as (Hin & Hge & _). specialize (Hup u Hin). lia. }
  destruct (nearest_down _ _) as [t|].
  - exists t. by simpl.
  - specialize (Hd m Hm). lia.
Qed.

Lemma reversal_when_up_exhausted_witness :
  ∃ t, outcome (choose "up" 5) world_5_up_above_3 = Ok (Some t, "down") ∧
       largest_upto (k_down (store world_5_up_above_3)) 5 (Some t) ∧
       k_down (store (after (choose "up" 5) world_5_up_above_3))
         = k_down (store world_5_up_above_3) ∖ {[t]} ∧
       k_up (store (after (choose "up" 5) world_5_up_above_3))
         = k_up (store world_5_up_above_3).
Proof.
  apply (reversal_when_up_exhausted world_5_up_above_3 5).
  - reflexivity.
  - simpl. intros m ->%elem_of_singleton. lia.
  - simpl. intros m Hm.
    repeat (apply elem_of_union in Hm as [Hm|Hm]);
      apply elem_of_singleton in Hm; lia.
  - exists 3. split; [|lia]. simpl.
    apply elem_of_union_l, elem_of_union_r. by apply elem_of_singleton.
Defined.

(** With direction 'up', nothing at or above the current floor in the up
    queue and nothing at or below it in the down queue, no floor is selected,
    the direction becomes 'idle' and the queues stay as they are. *)
Lemma no_reversal_without_floor_below (w : World) (current_floor : Z) :
  faults w = [] →
  (∀ m, m ∈ k_up (store w) → m < current_floor) →
  (∀ m, m ∈ k_down (store w) → current_floor < m) →
  choose "up" current_floor w = (Ok (None, "idle"), w).
Proof.
  intros Hw Hup Hdown.
  assert (nearest_up (k_up (store w)) current_floor = None) as Eu.
  { pose proof (nearest_up_spec (k_up (store w)) current_floor) as Hu.
    destruct (nearest_up _ _) as [u|]; [|done].
    destruct Hu as (Hin & Hge & _). specialize (Hup u Hin). lia. }
  assert (nearest_down (k_down (store w)) current_floor = None) as Ed.
  { unfold nearest_down.
    destruct (filter _ _) as [|x l] eqn:Hf; [done|].
    apply (filter_sorted_first (flip Z.le)) in Hf as (Hin & Hle & _);
      [|apply by_score_rev_sorted].
    apply elem_of_reverse, elem_of_by_score in Hin.
    specialize (Hdown x Hin). lia. }
  rewrite choose_reliable by done. unfold selection. simpl.
  rewrite Eu, Ed. by reliable w.
Qed.

(** ** State accessors on a reliable store *)

Lemma try_reraise {A} (m : M A) w : try_except m (fun e => raise e) w = m w.
Proof. unfold try_except, raise. by destruct (m w) as [[a|e] w']. Qed.

Lemma state_dict_floor fl d h :
  (state_dict fl d ∪ h) !! "floor" = Some (py_str fl).
Proof. apply lookup_union_Some_l. unfold state_dict. by simplify_map_eq. Qed.

Lemma state_dict_state fl d h :
  (state_dict fl d ∪ h) !! "state" = Some d.
Proof. apply lookup_union_Some_l. unfold state_dict. by simplify_map_eq. Qed.

Lemma set_current_state_reliable d w :
  faults w = [] → is_hash_or_missing (k_state (store w)) →
  set_current_state d w =
  (Ok tt, mkWorld (set_state_hash (d ∪ hash_of (k_state (store w))) (store w))
                  (once w) [] (writes w ++ [d])).
Proof.
  intros Hw Hty. reliable w. unfold set_current_state, set_state_hash. run.
  destruct k_state0 as [[h|ty]|]; simpl in *; try done.
  by rewrite (right_id_L ∅ (∪)).
Qed.

Lemma set_current_floor_reliable fl w :
  faults w = [] →
  set_current_floor fl w =
  (Ok tt, set_store (mkRedis (k_state (store w)) (Some (py_str fl)) (k_up (store w))
                             (k_down (store w)) (k_intended (store w))) w).
Proof. intros Hw. reliable w. unfold set_current_floor. by run. Qed.

Lemma get_current_state_present w h :
  faults w = [] → k_state (store w) = Some (StHash h) → h ≠ ∅ →
  get_current_state w = (Ok h, w).
Proof.
  intros Hw Hs Hne. reliable w. unfold get_current_state. run.
  by case_decide.
Qed.

Lemma get_current_state_reset w :
  faults w = [] →
  match k_state (store w) with
  | Some (StHash h) => h = ∅
  | _ => True
  end →
  get_current_state w =
  (Ok default_state,
   mkWorld (set_state_hash default_state (store w)) (once w) []
           (writes w ++ [default_state])).
Proof.
  intros Hw Hs. reliable w. unfold get_current_state, set_current_state, set_state_hash.
  destruct k_state0 as [[h|ty]|]; simpl in *.
  - subst h. run. case_decide; [|done]. simpl.
    by rewrite (right_id_L ∅ (∪)).
  - destruct ty; run; by case_decide.
  - run. by case_decide.
Qed.

Lemma elevator_state_hash s cf dir :
  elevator_state s = Some (cf, dir) →
  ∃ h f, k_state s = Some (StHash h) ∧ h !! "floor" = Some f ∧
         py_int f = Some cf ∧ h !! "state" = Some dir.
Proof.
  unfold elevator_state. intros H.
  destruct (k_state s) as [[h|?]|]; try done.
  destruct (h !! "floor") as [f|] eqn:Hf; [|done].
  destruct (h !! "state") as [d|] eqn:Hd; [|done].
  destruct (py_int f) as [n|] eqn:Hn; simplify_eq/=. eauto 10.
Qed.

Lemma elevator_state_written s fl d h :
  elevator_state (set_state_hash (state_dict fl d ∪ h) s) = Some (fl, d).
Proof.
  unfold elevator_state, set_state_hash. simpl.
  by rewrite state_dict_floor, state_dict_state, py_int_str.
Qed.

Lemma go_to_reads w cf dir :
  faults w = [] → elevator_state (store w) = Some (cf, dir) →
  go_to w = dispatch cf dir w.
Proof.
  intros Hw (h & f & Hs & Hf & Hn & Hd)%elevator_state_hash.
  unfold go_to. rewrite try_reraise.
  unfold go_to_body.
  unfold bind at 1. rewrite (get_current_state_present w h); [|done|done|].
  2:{ intros ->. by rewrite lookup_empty in Hf. }
  unfold subscript. rewrite Hf, Hd.
  unfold bind at 1. unfold ret at 1.
  unfold bind at 1. unfold int_of. rewrite Hn. unfold ret at 1.
  unfold bind at 1. unfold ret at 1.
  reflexivity.
Qed.

(** On a reliable store the read of the state leaves a hash under 'state'
    and touches neither the queues nor the flag; it writes the defaults when
    it finds no hash, and nothing when it finds one. *)
Lemma get_current_state_reliable w :
  faults w = [] →
  let w0 := read w in
  faults w0 = [] ∧ is_hash_or_missing (k_state (store w0)) ∧
  k_up (store w0) = k_up (store w) ∧ k_down (store w0) = k_down (store w) ∧
  k_intended (store w0) = k_intended (store w) ∧
  once w0 = once w ∧
  (writes w0 = writes w ∨ writes w0 = writes w ++ [default_state]) ∧
  (is_Some (elevator_state (store w)) → w0 = w).
Proof.
  intros Hw w0. subst w0. unfold read, after.
  destruct (k_state (store w)) as [[h|ty]|] eqn:Hs.
  - destruct (decide (h = ∅)) as [->|Hne].
    + rewrite get_current_state_reset by (by rewrite ?Hs). simpl.
      split_and!; try done; auto.
      unfold elevator_state. rewrite Hs, lookup_empty. by intros [? ?].
    + rewrite (get_current_state_present w h) by done. simpl.
      rewrite Hs. split_and!; try done; auto.
  - rewrite get_current_state_reset by (by rewrite ?Hs). simpl.
    split_and!; try done; auto.
    unfold elevator_state. rewrite Hs. by intros [? ?].
  - rewrite get_current_state_reset by (by rewrite ?Hs). simpl.
    split_and!; try done; auto.
    unfold elevator_state. rewrite Hs. by intros [? ?].
Qed.

(** When the read returns the defaults, the tick goes on from floor 1,
    'idle'. *)
Lemma go_to_on_defaults w :
  outcome get_current_state w = Ok default_state →
  go_to w = dispatch 1 "idle" (read w).
Proof.
  unfold outcome, read, after. intros E.
  unfold go_to. rewrite try_reraise.
  unfold go_to_body. unfold bind at 1.
  destruct (get_current_state w) as [r w0]. simpl in *. subst r.
  change (subscript default_state "floor") with (@ret string "1").
  unfold bind at 1. unfold ret at 1.
  change (int_of "1") with (ret 1).
  unfold bind at 1. unfold ret at 1.
  change (subscript default_state "state") with (@ret string "idle").
  unfold bind at 1. unfold ret at 1.
  reflexivity.
Qed.

Lemma go_to_after_read w cf dir :
  faults w = [] →
  elevator_state (store (read w)) = Some (cf, dir) →
  go_to w = dispatch cf dir (read w).
Proof.
  intros Hw. unfold read, after.
  assert ((∃ h, k_state (store w) = Some (StHash h) ∧ h ≠ ∅) ∨
          match k_state (store w) with
          | Some (StHash h) => h = ∅
          | _ => True
          end) as [(h & Hs & Hne)|Hs].
  { destruct (k_state (store w)) as [[h|ty]|]; auto.
    destruct (decide (h = ∅)); eauto. }
  - rewrite (get_current_state_present w h) by done. simpl.
    by apply go_to_reads.
  - rewrite get_current_state_reset by done. simpl.
    intros [= <- <-].
    rewrite go_to_on_defaults; unfold outcome, read, after;
      by rewrite get_current_state_reset.
Qed.

(** ** One tick on a reliable store *)

Lemma selection_none dir cf up down nd :
  (selection dir cf up down).1 = (None, nd) →
  selection dir cf up down = ((None, "idle"), (up, down)).
Proof.
  unfold selection.
  destruct (String.eqb dir "up"); [|destruct (String.eqb dir "down")];
    destruct (nearest_up up cf), (nearest_down down cf); simpl; try done.
  by destruct (_ <=? _).
Qed.

Lemma choose_none w dir cf nd :
  faults w = [] → outcome (choose dir cf) w = Ok (None, nd) →
  choose dir cf w = (Ok (None, "idle"), w).
Proof.
  intros Hw. unfold outcome. rewrite choose_reliable by done. simpl.
  intros [= H]. apply selection_none in H. rewrite H. by reliable w.
Qed.

Lemma choose_some w dir cf t nd :
  faults w = [] → outcome (choose dir cf) w = Ok (Some t, nd) →
  ∃ up down,
    choose dir cf w = (Ok (Some t, nd), set_store (set_queues up down (store w)) w).
Proof.
  intros Hw. unfold outcome. rewrite choose_reliable by done. simpl.
  intros [= H]. rewrite H. eauto.
Qed.

(** The floor-by-floor loop of [travel]: it writes 'state' and
    'current_floor' only. *)
Lemma moving_reliable (l : list Z) (nd : string) w :
  faults w = [] → is_hash_or_missing (k_state (store w)) →
  ∃ h fl tr,
    for_each l (fun fl =>
      set_current_floor fl ;; set_current_state (state_dict fl nd)) w =
    (Ok tt, mkWorld (mkRedis h fl (k_up (store w)) (k_down (store w))
                             (k_intended (store w)))
                    (once w) [] (writes w ++ tr)) ∧
    is_hash_or_missing h.
Proof.
  revert w. induction l as [|x l IH]; intros w Hw Hty.
  - exists (k_state (store w)), (k_current_floor (store w)), [].
    split; [|done]. reliable w. unfold ret. by rewrite (right_id_L [] (++)).
  - simpl. unfold bind at 1. unfold bind at 1.
    rewrite set_current_floor_reliable by done.
    rewrite set_current_state_reliable by (by reliable w).
    match goal with
    | |- context [for_each l _ ?w'] =>
        destruct (IH w') as (h & fl & tr & E & Hh); [done|done|]; rewrite E
    end.
    exists h, fl, (state_dict x nd :: tr). split; [|done].
    simpl. by rewrite <- (assoc_L (++)).
Qed.

Lemma travel_reliable cf t nd w :
  faults w = [] → is_hash_or_missing (k_state (store w)) →
  ∃ h tr,
    travel cf t nd w =
    (Ok tt, mkWorld (mkRedis (Some (StHash (state_dict t nd ∪ h))) (Some (py_str t))
                             (k_up (store w)) (k_down (store w))
                             (k_intended (store w)))
                    (once w) [] (writes w ++ tr ++ [state_dict t nd])).
Proof.
  intros Hw Hty. unfold travel.
  assert (∃ h fl tr,
    (if String.eqb nd "down" then
       for_each (range_down cf (t - 1)) (fun fl =>
         set_current_floor fl ;; set_current_state (state_dict fl nd))
     else if String.eqb nd "up" then
       for_each (range_up cf (t + 1)) (fun fl =>
         set_current_floor fl ;; set_current_state (state_dict fl nd))
     else ret tt) w =
    (Ok tt, mkWorld (mkRedis h fl (k_up (store w)) (k_down (store w))
                             (k_intended (store w)))
                    (once w) [] (writes w ++ tr)) ∧
    is_hash_or_missing h) as (h & fl & tr & Hloop & Hh).
  { destruct (String.eqb nd "down"); [by apply moving_reliable|].
    destruct (String.eqb nd "up"); [by apply moving_reliable|].
    exists (k_state (store w)), (k_current_floor (store w)), [].
    split; [|done]. reliable w. unfold ret. by rewrite (right_id_L [] (++)). }
  unfold bind at 1. rewrite Hloop.
  unfold bind at 1. rewrite set_current_state_reliable by done.
  rewrite set_current_floor_reliable by done.
  exists (hash_of h), tr. simpl. unfold set_store. simpl.
  by rewrite <- (assoc_L (++)).
Qed.

Lemma arrive_registered t d w :
  faults w = [] → is_hash_or_missing (k_state (store w)) →
  k_intended (store w) !! t = Some d → d ≠ "" →
  arrive t w =
  (Ok tt, mkWorld (mkRedis (Some (StHash (state_dict t d ∪ hash_of (k_state (store w)))))
                           (k_current_floor (store w)) (k_up (store w))
                           (k_down (store w)) (delete t (k_intended (store w))))
                  (once w) [] (writes w ++ [state_dict t d])).
Proof.
  intros Hw Hty Hd Hne. apply truthy_Some in Hne.
  reliable w. unfold arrive, set_current_state. run.
  rewrite Hd. unfold truthy. rewrite Hne. simpl.
  destruct k_state0 as [[h|ty]|]; simpl in *; try done;
    by rewrite (right_id_L ∅ (∪)).
Qed.

Lemma arrive_unregistered t w :
  faults w = [] → truthy (k_intended (store w) !! t) = false →
  arrive t w = (Ok tt, w).
Proof.
  intros Hw Hd. reliable w. unfold arrive. run.
  destruct (k_intended0 !! t) as [d|]; [|done].
  by rewrite Hd.
Qed.

Lemma settle_first cf w :
  faults w = [] → is_hash_or_missing (k_state (store w)) → once w ≠ 1 →
  settle cf w =
  (Ok tt, mkWorld (set_state_hash (state_dict cf "idle" ∪ hash_of (k_state (store w)))
                                  (store w))
                  1 [] (writes w ++ [state_dict cf "idle"])).
Proof.
  intros Hw Hty Ho. apply Z.eqb_neq in Ho.
  reliable w. unfold settle, set_current_state, set_state_hash. run.
  rewrite Ho. simpl.
  destruct k_state0 as [[h|ty]|]; simpl in *; try done;
    by rewrite (right_id_L ∅ (∪)).
Qed.

Lemma settle_again cf w : once w = 1 → settle cf w = (Ok tt, w).
Proof.
  intros Ho. destruct w; simpl in *; subst. reflexivity.
Qed.

Lemma tick_no_target w cf dir nd :
  faults w = [] → elevator_state (store (read w)) = Some (cf, dir) →
  outcome (choose dir cf) (read w) = Ok (None, nd) →
  go_to w = settle cf (read w).
Proof.
  intros Hw Hs Hc. rewrite (go_to_after_read w cf dir) by done.
  destruct (get_current_state_reliable w Hw) as (Hw0 & _).
  unfold dispatch, bind. by rewrite (choose_none (read w) dir cf nd).
Qed.

(** A tick that finds a floor to go to: the cab ends there, and the
    direction it ends with is the intended one if the floor has one on
    record, which is then deleted. *)
Lemma tick_target w cf dir t nd :
  faults w = [] → elevator_state (store (read w)) = Some (cf, dir) →
  outcome (choose dir cf) (read w) = Ok (Some t, nd) →
  ∃ up down h tr,
    go_to w =
    (Ok tt,
     mkWorld
       (mkRedis
          (Some (StHash
             (state_dict t (if truthy (k_intended (store w) !! t)
                            then default nd (k_intended (store w) !! t)
                            else nd) ∪ h)))
          (Some (py_str t)) up down
          (if truthy (k_intended (store w) !! t)
           then delete t (k_intended (store w))
           else k_intended (store w)))
       (once w) []
       (writes (read w) ++ tr ++
        [state_dict t (if truthy (k_intended (store w) !! t)
                       then default nd (k_intended (store w) !! t)
                       else nd)])).
Proof.
  intros Hw Hs Hc. rewrite (go_to_after_read w cf dir) by done.
  destruct (get_current_state_reliable w Hw)
    as (Hw0 & Hty0 & _ & _ & Hreg & Ho & _).
  rewrite <- Hreg, <- Ho. clear Hreg Ho Hs. revert Hw0 Hty0 Hc.
  generalize (read w). clear w Hw. intros w Hw Hs Hc.
  destruct (choose_some w dir cf t nd Hw Hc) as (up & down & Hch).
  unfold dispatch. unfold bind at 1. rewrite Hch.
  unfold bind at 1.
  edestruct (travel_reliable cf t nd
    (set_store (set_queues up down (store w)) w)) as (h & tr & ->);
    [by reliable w | by reliable w |].
  simpl.
  destruct (truthy (k_intended (store w) !! t)) eqn:Htr.
  - destruct (k_intended (store w) !! t) as [d|] eqn:Hd; [|done].
    apply truthy_Some in Htr.
    rewrite (arrive_registered t d) by done. simpl.
    exists up, down, (state_dict t nd ∪ h), (tr ++ [state_dict t nd]).
    by rewrite <- !(assoc_L (++)).
  - rewrite arrive_unregistered by done.
    by exists up, down, h, tr.
Qed.

Lemma choose_empty w dir cf :
  faults w = [] → k_up (store w) = ∅ → k_down (store w) = ∅ →
  outcome (choose dir cf) w = Ok (None, "idle").
Proof.
  intros Hw Hu Hd. unfold outcome. rewrite choose_reliable by done. simpl.
  rewrite Hu, Hd.
  assert (nearest_up ∅ cf = None) as Eu.
  { pose proof (nearest_up_spec ∅ cf) as H.
    destruct (nearest_up ∅ cf); [|done].
    destruct H as (H & _). by apply not_elem_of_empty in H. }
  assert (nearest_down ∅ cf = None) as Ed.
  { unfold nearest_down.
    destruct (filter _ _) as [|x l] eqn:Hf; [done|].
    apply (filter_sorted_first (flip Z.le)) in Hf as (Hin & _);
      [|apply by_score_rev_sorted].
    apply elem_of_reverse, elem_of_by_score in Hin.
    by apply not_elem_of_empty in Hin. }
  unfold selection. rewrite Eu, Ed.
  by destruct (String.eqb dir "up"), (String.eqb dir "down").
Qed.

(** ** Invariants of the store and the flag, whatever commands fail *)

Section invariant.
Context (Q : Redis → Z → Prop).

Lemma preserves_ret {A} (a : A) : preserves Q (ret a).
Proof. by intros w. Qed.

Lemma preserves_raise {A} e : preserves Q (@raise A e).
Proof. by intros w. Qed.

Lemma preserves_bind {A B} (m : M A) (k : A → M B) :
  preserves Q m → (∀ a, preserves Q (k a)) → preserves Q (bind m k).
Proof.
  intros Hm Hk w HQ. specialize (Hm w HQ). unfold after, bind in *.
  destruct (m w) as [[a|e] w']; [by apply Hk | done].
Qed.

Lemma preserves_try {A} (m : M A) (h : exn → M A) :
  preserves Q m → (∀ e, preserves Q (h e)) → preserves Q (try_except m h).
Proof.
  intros Hm Hh w HQ. specialize (Hm w HQ). unfold after, try_except in *.
  destruct (m w) as [[a|e] w']; [done | by apply Hh].
Qed.

Lemma preserves_for_each {A} (l : list A) (body : A → M unit) :
  (∀ x, preserves Q (body x)) → preserves Q (for_each l body).
Proof.
  intros Hb. induction l as [|x l IH]; simpl.
  - apply preserves_ret.
  - by apply preserves_bind.
Qed.

Lemma preserves_command {A} (f : Redis → result A * Redis) :
  (∀ s o, Q s o → Q (f s).2 o) → preserves Q (command f).
Proof.
  intros Hf w HQ. specialize (Hf (store w) (once w) HQ).
  unfold after, command.
  destruct (faults w) as [|[] fs]; simpl; [|done|];
    by destruct (f (store w)).
Qed.

Lemma preserves_get_once : preserves Q get_once.
Proof. by intros w. Qed.

Lemma preserves_log_write d : preserves Q (log_write d).
Proof. by intros w. Qed.

Lemma preserves_set_once v : (∀ s o, Q s o → Q s v) → preserves Q (set_once v).
Proof. intros H w HQ. exact (H _ _ HQ). Qed.

Lemma preserves_subscript d key : preserves Q (subscript d key).
Proof. unfold subscript. destruct (d !! key); by intros w. Qed.

Lemma preserves_int_of v : preserves Q (int_of v).
Proof. unfold int_of. destruct (py_int v); by intros w. Qed.

Lemma preserves_local {A} (v : option A) : preserves Q (local v).
Proof. unfold local. destruct v; by intros w. Qed.
End invariant.

(** Splits a program into its commands. *)
Ltac step :=
  lazymatch goal with
  | |- preserves _ (bind _ _) => apply preserves_bind; [|intros ?]
  | |- preserves _ (try_except _ _) => apply preserves_try; [|intros ?]
  | |- preserves _ (for_each _ _) => apply preserves_for_each; intros ?
  | |- preserves _ (ret _) => apply preserves_ret
  | |- preserves _ (raise _) => apply preserves_raise
  | |- preserves _ get_once => apply preserves_get_once
  | |- preserves _ (log_write _) => apply preserves_log_write
  | |- preserves _ (subscript _ _) => apply preserves_subscript
  | |- preserves _ (int_of _) => apply preserves_int_of
  | |- preserves _ (local _) => apply preserves_local
  | |- preserves _ (if ?b then _ else _) => destruct b
  | |- preserves _ (match ?x with _ => _ end) => destruct x
  | |- preserves _ (let (_, _) := ?x in _) => destruct x
  end.

(** Every command of the service except [set_once] leaves the flag alone. *)
Lemma command_keeps_once {A} c (f : Redis → result A * Redis) :
  preserves (fun _ o => o = c) (command f).
Proof. by apply preserves_command. Qed.

Lemma call_resets_once w floor direction :
  once (after (call floor direction) w) = 0.
Proof.
  assert (preserves (fun _ o => o = 0)
            (try_except (call_body floor direction) (fun e => raise e))) as H.
  { unfold call_body, get_current_floor, add_floor.
    repeat first [step | apply command_keeps_once]. }
  unfold call, after, bind at 1. simpl. by apply H.
Qed.

(** ** Settling when idle *)

Lemma tick_settled w cf dir :
  faults w = [] → elevator_state (store w) = Some (cf, dir) →
  k_up (store w) = ∅ → k_down (store w) = ∅ → once w = 1 →
  go_to w = (Ok tt, w).
Proof.
  intros Hw Hs Hu Hd Ho.
  destruct (get_current_state_reliable w Hw) as (_ & _ & _ & _ & _ & _ & _ & Hsame).
  assert (read w = w) as Hr by eauto.
  rewrite (tick_no_target w cf dir "idle");
    rewrite ?Hr; auto using choose_empty.
  by apply settle_again.
Qed.



(** ** The flag after a call *)

Lemma serves_once w w' : serves w w' → once w' = once w.
Proof.
  induction 1 as [|w cf dir t nd w' Hw Hs Hc _ IH]; [done|].
  rewrite IH. unfold after.
  by destruct (tick_target w cf dir t nd Hw Hs Hc) as (up & down & h & tr & ->).
Qed.

(** C10. [call] sets the flag to 0 before it does anything else, so the
    flag is 0 after every call: one that enqueues, one that finds the
    elevator already at the floor, one that raises, with any store command
    failing.  Ticks that find a floor to go to leave the flag alone, and the
    first tick after them that finds none writes the state (current floor,
    'idle'). *)
Theorem call_resets_settled_flag (w : World) (floor : Z) (direction : option string)
    (w' : World) (cf : Z) (dir nd : string) :
  serves (after (call floor direction) w) w' →
  faults w' = [] → elevator_state (store (read w')) = Some (cf, dir) →
  outcome (choose dir cf) (read w') = Ok (None, nd) →
  once (after (call floor direction) w) = 0 ∧
  once w' = 0 ∧
  outcome go_to w' = Ok tt ∧
  writes (after go_to w') = writes (read w') ++ [state_dict cf "idle"] ∧
  (is_Some (elevator_state (store w')) → writes (read w') = writes w') ∧
  elevator_state (store (after go_to w')) = Some (cf, "idle").
Proof.
  intros Hserves Hw Hs Hc.
  assert (once w' = 0) as Ho.
  { rewrite (serves_once _ _ Hserves). apply call_resets_once. }
  destruct (get_current_state_reliable w' Hw)
    as (Hw0 & Hty0 & _ & _ & _ & Ho0 & _ & Hsame).
  split; [apply call_resets_once|]. split; [done|].
  unfold outcome, after.
  rewrite (tick_no_target w' cf dir nd) by done.
  rewrite settle_first; [|done|done|lia].
  simpl. split_and!; [done|done| |apply elevator_state_written].
  intros Hsome. by rewrite (Hsame Hsome).
Qed.

Lemma call_resets_settled_flag_witness :
  let w' := after (call 5 None) world_settled in
  outcome (call 5 None) world_settled = Ok (Some "Already at the requested floor") ∧
  once w' = 0 ∧
  writes (after go_to w') = writes w' ++ [state_dict 5 "idle"].
Proof.
  split; [reflexivity|].
  pose proof (call_resets_settled_flag world_settled 5 None
                (after (call 5 None) world_settled) 5 "idle" "idle") as H.
  destruct H as (H1 & _ & _ & H2 & _).
  - apply serves_none.
  - reflexivity.
  - reflexivity.
  - reflexivity.
  - split; [exact H1 | exact H2].
Defined.

(** ** The intended direction of a floor *)

(** Reduces an invariant of a single store command to its effect on the
    store. *)
Ltac command_effect :=
  unfold redis_zrangebyscore, redis_zrevrangebyscore, redis_zrem, redis_zadd,
    redis_zrange_all, redis_hget_intended, redis_hset_intended,
    redis_hdel_intended, redis_get_current_floor, redis_set_current_floor,
    redis_type_state, redis_delete_state, redis_hgetall_state,
    redis_hmset_state;
  apply preserves_command;
  let s := fresh "s" in
  intros s ? ?; destruct s; unfold with_zset; simpl in *;
  repeat case_match; simpl in *.

Ltac unfold_service :=
  unfold go_to, go_to_body, dispatch, settle, arrive, travel, choose,
    get_next_floor, take_first, get_current_state, set_current_state,
    set_current_floor, get_current_floor, add_floor.

(** A call from inside leaves every intended direction as it is. *)
Lemma car_call_keeps_intended w floor :
  k_intended (store (after (call floor None) w)) = k_intended (store w).
Proof.
  assert (preserves (fun s _ => k_intended s = k_intended (store w))
            (call floor None)) as H.
  { unfold call, call_body. unfold_service. simpl.
    repeat first [step | by apply preserves_set_once | by command_effect]. }
  by apply H.
Qed.

(** A tick records no intended direction: it can only delete one. *)
Lemma go_to_keeps_or_deletes_intended w :
  k_intended (store (after go_to w)) ⊆ k_intended (store w).
Proof.
  assert (preserves (fun s _ => k_intended s ⊆ k_intended (store w)) go_to) as H.
  { unfold_service.
    repeat first [step | by apply preserves_set_once
                 | by command_effect
                 | command_effect; by etrans; [apply delete_subseteq|] ]. }
  by apply H.
Qed.

(** C7. A call from inside never records an intended direction, and a tick
    never records one either, so only calls from outside do.  When a tick
    takes the cab to a floor that has an intended direction on record, the
    state it leaves is (that floor, the intended direction), that being its
    last write, and the record for the floor is deleted, the others kept. *)
Theorem intended_direction_applied_on_arrival (w : World) (cf t : Z)
    (dir nd d : string) :
  faults w = [] → elevator_state (store (read w)) = Some (cf, dir) →
  outcome (choose dir cf) (read w) = Ok (Some t, nd) →
  k_intended (store w) !! t = Some d → d ≠ "" →
  outcome go_to w = Ok tt ∧
  elevator_state (store (after go_to w)) = Some (t, d) ∧
  last (writes (after go_to w)) = Some (state_dict t d) ∧
  k_intended (store (after go_to w)) = delete t (k_intended (store w)) ∧
  k_intended (store (after go_to w)) !! t = None ∧
  (∀ w0 floor,
     k_intended (store (after (call floor None) w0)) = k_intended (store w0)) ∧
  (∀ w0, k_intended (store (after go_to w0)) ⊆ k_intended (store w0)).
Proof.
  intros Hw Hs Hc Hd Hne.
  destruct (tick_target w cf dir t nd Hw Hs Hc) as (up & down & h & tr & E).
  rewrite Hd in E. apply truthy_Some in Hne. rewrite Hne in E. simpl in E.
  unfold outcome, after. rewrite E. simpl.
  split_and!; try done.
  - unfold elevator_state. simpl.
    by rewrite state_dict_floor, state_dict_state, py_int_str.
  - by rewrite (assoc_L (++)), last_snoc.
  - apply lookup_delete_eq.
  - apply car_call_keeps_intended.
  - apply go_to_keeps_or_deletes_intended.
Qed.

Lemma intended_direction_applied_on_arrival_witness :
  elevator_state (store (after go_to world_7_up_to_10)) = Some (10, "down") ∧
  k_intended (store (after go_to world_7_up_to_10)) !! 10 = None.
Proof.
  pose proof (intended_direction_applied_on_arrival world_7_up_to_10 7 10
                "up" "up" "down") as H.
  destruct H as (_ & H1 & _ & _ & H2 & _).
  - reflexivity.
  - reflexivity.
  - vm_compute. reflexivity.
  - reflexivity.
  - discriminate.
  - split; [exact H1 | exact H2].
Defined.

(** ** Calls on a reliable store *)

Lemma get_current_floor_reliable w cf :
  faults w = [] → current_floor_of (store w) = Some cf →
  get_current_floor w = (Ok cf, w).
Proof.
  intros Hw Hcf. reliable w. unfold get_current_floor, current_floor_of in *.
  simpl in Hcf. run.
  destruct k_current_floor0 as [v|]; [|by simplify_eq].
  unfold int_of, truthy in *. destruct (negb _); [|by simplify_eq].
  by rewrite Hcf.
Qed.

(** A call from outside, from a floor other than the current one. *)
Lemma hall_call_reliable w floor d cf :
  faults w = [] → current_floor_of (store w) = Some cf →
  d ≠ "" → floor ≠ cf →
  call floor (Some d) w =
  (Ok None,
   mkWorld (mkRedis (k_state (store w)) (k_current_floor (store w))
              (if floor >? cf then {[floor]} ∪ k_up (store w) else k_up (store w))
              (if floor >? cf then k_down (store w) else {[floor]} ∪ k_down (store w))
              (<[floor := d]> (k_intended (store w))))
           0 [] (writes w)).
Proof.
  intros Hw Hcf Hd Hne. apply truthy_Some in Hd.
  unfold call. unfold bind at 1. unfold set_once at 1. rewrite try_reraise.
  unfold call_body. unfold bind at 1.
  rewrite (get_current_floor_reliable _ cf) by done.
  rewrite Hd. reliable w. unfold add_floor, local.
  destruct (Z.gtb_spec floor cf); [by run|].
  destruct (Z.ltb_spec floor cf); [by run|]. lia.
Qed.

(** A call from outside, from the current floor: [pickup_queue] was never
    assigned, and reading it raises before the store is touched. *)
Lemma hall_call_at_floor w d cf :
  faults w = [] → current_floor_of (store w) = Some cf → d ≠ "" →
  call cf (Some d) w =
  (Raise UnboundLocalError, mkWorld (store w) 0 [] (writes w)).
Proof.
  intros Hw Hcf Hd. apply truthy_Some in Hd.
  unfold call. unfold bind at 1. unfold set_once at 1. rewrite try_reraise.
  unfold call_body. unfold bind at 1.
  rewrite (get_current_floor_reliable _ cf) by done.
  rewrite Hd. reliable w. unfold add_floor, local.
  rewrite Z.gtb_ltb, Z.ltb_irrefl. by run.
Qed.

(** A call from inside. *)
Lemma car_call_reliable w floor cf :
  faults w = [] → current_floor_of (store w) = Some cf →
  call floor None w =
  if cf =? floor
  then (Ok (Some "Already at the requested floor"),
        mkWorld (store w) 0 [] (writes w))
  else (Ok None,
        mkWorld (mkRedis (k_state (store w)) (k_current_floor (store w))
                   (if cf <? floor then {[floor]} ∪ k_up (store w) else k_up (store w))
                   (if cf <? floor then k_down (store w) else {[floor]} ∪ k_down (store w))
                   (k_intended (store w)))
                0 [] (writes w)).
Proof.
  intros Hw Hcf.
  unfold call. unfold bind at 1. unfold set_once at 1. rewrite try_reraise.
  unfold call_body. unfold bind at 1.
  rewrite (get_current_floor_reliable _ cf) by done.
  reliable w. unfold add_floor. simpl.
  destruct (cf =? floor); [by run|].
  destruct (cf <? floor); by run.
Qed.

(** C3, evaluated: with the elevator at floor 5, a call from outside at
    floor 5 raises [UnboundLocalError] and its handler answers with status
    500, where the same call from inside returns the already-there message.
    The store is left as it was. *)
Theorem hall_call_at_current_floor_raises :
  outcome (call 5 (Some "up")) world_settled = Raise UnboundLocalError ∧
  outcome (go_up 5) world_settled = Raise (HTTPException 500) ∧
  outcome (go_down 5) world_settled = Raise (HTTPException 500) ∧
  store (after (go_up 5) world_settled) = store world_settled ∧
  outcome (call 5 None) world_settled = Ok (Some "Already at the requested floor") ∧
  outcome (go_to_floor 5) world_settled = Ok submitted.
Proof. split_and!; vm_compute; reflexivity. Qed.

(** C4, evaluated: floor 25 is above [MAX_FLOOR]; the handler of a call from
    inside rejects it with status 400, the handler of a call from outside
    accepts it and floor 25 is in the up queue afterwards. *)
Theorem hall_call_above_max_floor_is_enqueued :
  MAX_FLOOR < 25 ∧
  outcome (go_to_floor 25) world0 = Raise (HTTPException 400) ∧
  outcome (go_up 25) world0 = Ok submitted ∧
  25 ∈ k_up (store (after (go_up 25) world0)) ∧
  k_intended (store (after (go_up 25) world0)) !! 25 = Some "up".
Proof. split_and!; vm_compute; reflexivity. Qed.

(** The handler of a call from inside rejects every floor outside
    [1, MAX_FLOOR] with status 400 and touches nothing. *)
Lemma go_to_floor_rejects w floor :
  floor < 1 ∨ MAX_FLOOR < floor →
  go_to_floor floor w = (Raise (HTTPException 400), w).
Proof.
  intros H. unfold go_to_floor, try_except, bind, raise.
  destruct (Z.gtb_spec floor MAX_FLOOR); [done|].
  destruct (Z.ltb_spec floor 1); [done|]. lia.
Qed.

(** The handlers of a call from outside reject a floor below 1, with status
    500, and touch nothing; they have no upper bound. *)
Lemma hall_rejects_below_1 w floor direction :
  floor < 1 →
  hall floor direction w = (Raise (HTTPException 500), w).
Proof.
  intros H. unfold hall, try_except, bind, raise.
  by destruct (Z.ltb_spec floor 1); [|lia].
Qed.

Lemma hall_accepts_above_max w floor direction cf :
  faults w = [] → current_floor_of (store w) = Some cf → cf < floor →
  direction ≠ "" → 1 <= floor →
  outcome (hall floor direction) w = Ok submitted ∧
  floor ∈ k_up (store (after (hall floor direction) w)).
Proof.
  intros Hw Hcf Hlt Hd Hpos.
  assert (hall floor direction w =
          (Ok submitted, after (call floor (Some direction)) w)) as E.
  { unfold after, hall, try_except, bind.
    destruct (Z.ltb_spec floor 1); [lia|]. unfold ret at 1.
    by rewrite (hall_call_reliable w floor direction cf) by (done || lia). }
  unfold outcome, after at 1. rewrite E. split; [done|].
  unfold after. rewrite (hall_call_reliable w floor direction cf) by (done || lia).
  cbn [fst snd store k_up]. destruct (Z.gtb_spec floor cf); [|lia].
  by apply elem_of_union_l, elem_of_singleton.
Qed.

(** ** One intended direction per floor *)

(** C9. Two calls from outside at the same floor [f], each made while the
    elevator is at another floor: the first leaves its direction on record
    for [f]; the second, made in any later world [w'] where that record is
    still there, replaces it with its own direction, so the record holds the
    second direction only, and the records of the other floors stay. *)
Theorem intended_direction_last_call_wins (w w' : World) (f cf cf' : Z)
    (d1 d2 : string) :
  faults w = [] → current_floor_of (store w) = Some cf → f ≠ cf → d1 ≠ "" →
  faults w' = [] → current_floor_of (store w') = Some cf' → f ≠ cf' → d2 ≠ "" →
  k_intended (store w') !! f = k_intended (store (after (call f (Some d1)) w)) !! f →
  let w2 := after (call f (Some d2)) w' in
  outcome (call f (Some d1)) w = Ok None ∧
  k_intended (store w') !! f = Some d1 ∧
  outcome (call f (Some d2)) w' = Ok None ∧
  k_intended (store w2) !! f = Some d2 ∧
  k_intended (store w2) = <[f := d2]> (k_intended (store w')) ∧
  ∀ g, g ≠ f → k_intended (store w2) !! g = k_intended (store w') !! g.
Proof.
  intros Hw Hcf Hne H1 Hw' Hcf' Hne' H2 Hrec w2. subst w2.
  revert Hrec. unfold outcome, after.
  rewrite (hall_call_reliable w f d1 cf) by done.
  rewrite (hall_call_reliable w' f d2 cf') by done. simpl.
  rewrite !lookup_insert_eq. intros Hrec.
  split_and!; try done.
  intros g Hg. by rewrite lookup_insert_ne.
Qed.

Lemma intended_direction_last_call_wins_witness :
  let w1 := after (call 10 (Some "down")) world_settled in
  let w2 := after (call 10 (Some "up")) w1 in
  k_intended (store w1) !! 10 = Some "down" ∧
  k_intended (store w2) !! 10 = Some "up".
Proof.
  pose proof (intended_direction_last_call_wins world_settled
                (after (call 10 (Some "down")) world_settled)
                10 5 5 "down" "up") as H.
  destruct H as (_ & H1 & _ & H2 & _).
  - reflexivity.
  - reflexivity.
  - lia.
  - discriminate.
  - reflexivity.
  - reflexivity.
  - lia.
  - discriminate.
  - reflexivity.
  - split; [exact H1 | exact H2].
Defined.

(** ** Reading the state *)

Lemma get_current_state_returns w :
  ∃ st, outcome get_current_state w = Ok st.
Proof.
  unfold outcome, get_current_state.
  match goal with
  | |- context [try_except ?m _ w] =>
      unfold try_except; destruct (m w) as [[st|e] w']
  end; simpl; eauto.
Qed.





(** ** Floors in the queues *)

(** Closes the invariant for a command on a sorted set. *)
Ltac floors :=
  unfold zset, floors_positive in *; simpl in *; repeat case_match;
  let m := fresh "m" in
  let Hm := fresh "Hm" in
  intros m Hm;
  rewrite ?elem_of_union, ?elem_of_difference, ?elem_of_singleton in Hm;
  repeat match goal with
         | H : _ ∨ _ |- _ => destruct H as [H|H]
         | H : _ ∧ _ |- _ => destruct H as [H ?]
         end;
  subst;
  match goal with
  | H : ∀ m, _ → 1 <= m |- _ => first [assumption | apply H; by auto]
  end.

Lemma call_keeps_floors_positive floor direction :
  1 <= floor →
  preserves (fun s _ => floors_positive s) (call floor direction).
Proof.
  intros Hpos. unfold call, call_body. unfold_service.
  repeat first
    [ step
    | by apply preserves_set_once
    | by command_effect
    | command_effect; floors ].
Qed.

(** The handlers only let floors from 1 upward into the queues, and a tick
    only takes floors out: the queues hold positive floors for as long as the
    service runs, whatever commands fail. *)
Lemma service_keeps_floors_positive :
  (∀ floor, preserves (fun s _ => floors_positive s) (go_to_floor floor)) ∧
  (∀ floor direction, preserves (fun s _ => floors_positive s) (hall floor direction)) ∧
  preserves (fun s _ => floors_positive s) go_to.
Proof.
  split_and!.
  - intros floor. destruct (Z.ltb_spec floor 1).
    + intros w HQ. unfold after. by rewrite go_to_floor_rejects by lia.
    + unfold go_to_floor.
      repeat first [step | by apply call_keeps_floors_positive].
  - intros floor direction. destruct (Z.ltb_spec floor 1).
    + intros w HQ. unfold after. by rewrite hall_rejects_below_1.
    + unfold hall.
      repeat first [step | by apply call_keeps_floors_positive].
  - unfold_service.
    repeat first [step | by apply preserves_set_once].
    all: try (by command_effect).
    all: command_effect; floors.
Qed.

(** ** Intended directions on record are directions *)

(** [call] records a direction only when it is given one, and a tick records
    none: the records never hold the empty string, which [arrive] would take
    for no record. *)
Lemma service_keeps_intended_nonempty :
  (∀ floor direction, preserves (fun s _ => intended_nonempty s) (call floor direction)) ∧
  preserves (fun s _ => intended_nonempty s) go_to.
Proof.
  split.
  - intros floor direction. unfold call, call_body.
    destruct (truthy direction) eqn:Hd.
    + destruct direction as [d|]; [|done]. apply truthy_Some in Hd. simpl.
      unfold_service.
      repeat first [step | by apply preserves_set_once].
      all: try (by command_effect).
      command_effect. unfold intended_nonempty in *. simpl in *.
      intros f d' [[_ <-]|[_ ?]]%lookup_insert_Some; eauto.
    + unfold_service.
      repeat first [step | by apply preserves_set_once].
      all: by command_effect.
  - unfold_service.
    repeat first [step | by apply preserves_set_once].
    all: try (by command_effect).
    command_effect. unfold intended_nonempty in *. simpl in *.
    intros f d' [_ ?]%lookup_delete_Some. eauto.
Qed.

(** * Further properties *)

(** ** The stored floor and the stored state *)

(** X1. On a reliable store, [get_current_floor] after
    [set_current_floor floor] returns [floor], for every integer, zero and
    the negative ones included. *)
Theorem current_floor_round_trip (w : World) (floor : Z) :
  faults w = [] →
  outcome get_current_floor (after (set_current_floor floor) w) = Ok floor ∧
  outcome current_floor (after (set_current_floor floor) w) = Ok floor.
Proof.
  intros Hw. unfold after. rewrite set_current_floor_reliable by done.
  assert (∀ w', faults w' = [] → current_floor_of (store w') = Some floor →
          outcome get_current_floor w' = Ok floor ∧
          outcome current_floor w' = Ok floor) as H.
  { intros w' Hw' Hcf. unfold outcome, current_floor, try_except.
    by rewrite (get_current_floor_reliable w' floor). }
  apply H; [by reliable w|].
  unfold current_floor_of. simpl.
  destruct (String.eqb_spec (py_str floor) ""); simpl; [|apply py_int_str].
  pose proof (py_int_str floor) as E. rewrite e in E. discriminate.
Qed.

Lemma current_floor_round_trip_witness :
  outcome get_current_floor (after (set_current_floor (-3)) world0) = Ok (-3).
Proof.
  apply (current_floor_round_trip world0 (-3)). reflexivity.
Defined.



(** X3. [GET /state] never answers with an error, whatever the store holds
    and whichever commands fail; and it is no pure read: on a reliable store
    without a hash under 'state' it leaves the defaults (floor 1, 'idle')
    stored there, a value of another type being replaced. *)
Theorem get_state_always_answers (w : World) :
  (∃ st, outcome get_state w = Ok st) ∧
  (faults w = [] → hash_of (k_state (store w)) = ∅ →
   outcome get_state w = Ok default_state ∧
   k_state (store (after get_state w)) = Some (StHash default_state) ∧
   writes (after get_state w) = writes w ++ [default_state]) ∧
  (faults w = [] → ∀ h, k_state (store w) = Some (StHash h) → h ≠ ∅ →
   get_state w = (Ok h, w)).
Proof.
  assert (get_state w = get_current_state w) as E.
  { unfold get_state, try_except.
    destruct (get_current_state_returns w) as [st Hst]. unfold outcome in Hst.
    by destruct (get_current_state w) as [[?|?] ?]. }
  unfold outcome, after. rewrite E. split_and!.
  - apply get_current_state_returns.
  - intros Hw Hh. rewrite get_current_state_reset; [done|done|].
    by destruct (k_state (store w)) as [[h|ty]|].
  - intros Hw h Hs Hne. by apply get_current_state_present.
Qed.

Lemma get_state_always_answers_witness :
  outcome get_state world_drifted = Ok default_state ∧
  k_state (store (after get_state world_drifted)) = Some (StHash default_state) ∧
  writes (after get_state world_drifted) = writes world_drifted ++ [default_state].
Proof.
  destruct (get_state_always_answers world_drifted) as (_ & H & _).
  apply H; reflexivity.
Defined.

(** X4. [hmset] merges: on a reliable store whose 'state' is a hash or
    missing, after [set_current_state] with a floor and a direction the read
    returns these two fields together with every other field the hash had,
    [go_to] reads that floor and that direction, and the read writes
    nothing. *)
Theorem state_write_then_read (w : World) (floor : Z) (direction : string) :
  faults w = [] → is_hash_or_missing (k_state (store w)) →
  let w' := after (set_current_state (state_dict floor direction)) w in
  outcome (set_current_state (state_dict floor direction)) w = Ok tt ∧
  get_current_state w' =
    (Ok (state_dict floor direction ∪ hash_of (k_state (store w))), w') ∧
  elevator_state (store w') = Some (floor, direction) ∧
  (∀ key, key ≠ "floor" → key ≠ "state" →
     hash_of (k_state (store w')) !! key = hash_of (k_state (store w)) !! key).
Proof.
  intros Hw Hty w'. subst w'. unfold outcome, after.
  rewrite set_current_state_reliable by done. simpl.
  split_and!; [done | | apply elevator_state_written |].
  - apply get_current_state_present; [done|done|].
    intros E. pose proof (state_dict_floor floor direction
                            (hash_of (k_state (store w)))) as Hf.
    rewrite E, lookup_empty in Hf. discriminate.
  - intros key Hk1 Hk2. rewrite lookup_union_r; [done|].
    unfold state_dict. by simplify_map_eq.
Qed.

Lemma state_write_then_read_witness :
  let w' := after (set_current_state (state_dict 9 "down")) world_2_with_garbage in
  elevator_state (store w') = Some (9, "down") ∧
  hash_of (k_state (store w')) !! "door" = Some "open".
Proof.
  pose proof (state_write_then_read world_2_with_garbage 9 "down") as H.
  destruct H as (_ & _ & H1 & H2).
  - reflexivity.
  - exact I.
  - split; [exact H1|]. rewrite H2; [reflexivity | discriminate | discriminate].
Defined.

(** ** Calls *)

(** X5. A call from inside on a reliable store: at the current floor it
    returns the already-there message and leaves the store as it is; above
    the current floor it adds the floor to the up queue and leaves the down
    queue alone; below, the other way round.  It never touches the intended
    directions, the stored state or the stored floor. *)
Theorem car_call_classifies (w : World) (floor cf : Z) :
  faults w = [] → current_floor_of (store w) = Some cf →
  let w' := after (call floor None) w in
  (floor = cf →
   outcome (call floor None) w = Ok (Some "Already at the requested floor") ∧
   store w' = store w) ∧
  (cf < floor →
   outcome (call floor None) w = Ok None ∧
   k_up (store w') = {[floor]} ∪ k_up (store w) ∧
   k_down (store w') = k_down (store w)) ∧
  (floor < cf →
   outcome (call floor None) w = Ok None ∧
   k_down (store w') = {[floor]} ∪ k_down (store w) ∧
   k_up (store w') = k_up (store w)) ∧
  k_intended (store w') = k_intended (store w) ∧
  k_state (store w') = k_state (store w) ∧
  k_current_floor (store w') = k_current_floor (store w).
Proof.
  intros Hw Hcf w'. subst w'. unfold outcome, after.
  rewrite (car_call_reliable w floor cf) by done.
  destruct (Z.eqb_spec cf floor) as [->|Hne]; simpl.
  - split_and!; try done; intros; lia.
  - destruct (Z.ltb_spec cf floor); simpl; split_and!; try done; intros; lia.
Qed.

Lemma car_call_classifies_witness :
  let w' := after (call 2 None) world_settled in
  outcome (call 2 None) world_settled = Ok None ∧
  k_down (store w') = {[2]} ∪ k_down (store world_settled) ∧
  k_up (store w') = k_up (store world_settled).
Proof.
  pose proof (car_call_classifies world_settled 2 5) as H.
  destruct H as (_ & _ & H & _).
  - reflexivity.
  - reflexivity.
  - apply H. lia.
Defined.

(** X6. A call from outside on a reliable store, from a floor other than
    the current one: it returns normally, adds the floor to the up queue if
    it lies above the current floor and to the down queue if below, whatever
    the direction asked for, and records that direction for the floor.  The
    other queue, the stored state and the stored floor stay. *)
Theorem hall_call_enqueues_and_records (w : World) (floor cf : Z) (direction : string) :
  faults w = [] → current_floor_of (store w) = Some cf →
  direction ≠ "" → floor ≠ cf →
  let w' := after (call floor (Some direction)) w in
  outcome (call floor (Some direction)) w = Ok None ∧
  (cf < floor →
   k_up (store w') = {[floor]} ∪ k_up (store w) ∧
   k_down (store w') = k_down (store w)) ∧
  (floor < cf →
   k_down (store w') = {[floor]} ∪ k_down (store w) ∧
   k_up (store w') = k_up (store w)) ∧
  k_intended (store w') = <[floor := direction]> (k_intended (store w)) ∧
  k_state (store w') = k_state (store w) ∧
  k_current_floor (store w') = k_current_floor (store w).
Proof.
  intros Hw Hcf Hd Hne w'. subst w'. unfold outcome, after.
  rewrite (hall_call_reliable w floor direction cf) by done. simpl.
  destruct (Z.gtb_spec floor cf); split_and!; try done; intros; lia.
Qed.

Lemma hall_call_enqueues_and_records_witness :
  let w' := after (call 2 (Some "up")) world_settled in
  outcome (call 2 (Some "up")) world_settled = Ok None ∧
  k_down (store w') = {[2]} ∪ k_down (store world_settled) ∧
  k_intended (store w') !! 2 = Some "up".
Proof.
  pose proof (hall_call_enqueues_and_records world_settled 2 5 "up") as H.
  destruct H as (H1 & _ & H2 & H3 & _).
  - reflexivity.
  - reflexivity.
  - discriminate.
  - lia.
  - split; [exact H1|]. split; [apply H2; lia|].
    rewrite H3. apply lookup_insert_eq.
Defined.

(** X7. Making the same call twice in a row on a reliable store leaves the
    world exactly as making it once: the queues are sets and the record of a
    floor holds one direction. *)
Theorem repeated_call_changes_nothing (w : World) (floor cf : Z)
    (direction : option string) :
  faults w = [] → current_floor_of (store w) = Some cf →
  direction ≠ Some "" →
  after (call floor direction) (after (call floor direction) w) =
  after (call floor direction) w.
Proof.
  intros Hw Hcf Hd.
  assert (∀ w', faults w' = [] → current_floor_of (store w') = Some cf →
                faults (after (call floor direction) w') = [] ∧
                current_floor_of (store (after (call floor direction) w')) = Some cf)
    as Hkeep.
  { intros w' Hw' Hcf'. unfold after. destruct direction as [d|].
    - assert (d ≠ "") as Hd' by congruence.
      destruct (decide (floor = cf)) as [->|Hne].
      + rewrite (hall_call_at_floor w' d cf) by done. by reliable w'.
      + rewrite (hall_call_reliable w' floor d cf) by done. by reliable w'.
    - rewrite (car_call_reliable w' floor cf) by done.
      destruct (cf =? floor); by reliable w'. }
  destruct (Hkeep w Hw Hcf) as [Hw1 Hcf1]. revert Hw1 Hcf1. unfold after.
  destruct direction as [d|].
  - assert (d ≠ "") as Hd' by congruence.
    destruct (decide (floor = cf)) as [->|Hne].
    + rewrite (hall_call_at_floor w d cf) by done. intros Hw1 Hcf1.
      by rewrite (hall_call_at_floor _ d cf).
    + rewrite (hall_call_reliable w floor d cf) by done. intros Hw1 Hcf1.
      rewrite (hall_call_reliable _ floor d cf) by done. simpl.
      rewrite insert_insert_eq.
      destruct (floor >? cf); by rewrite (assoc_L (∪)), (idemp_L (∪)).
  - rewrite (car_call_reliable w floor cf) by done. intros Hw1 Hcf1.
    rewrite (car_call_reliable _ floor cf) by done.
    destruct (cf =? floor); simpl; [done|].
    destruct (cf <? floor); by rewrite (assoc_L (∪)), (idemp_L (∪)).
Qed.

Lemma repeated_call_changes_nothing_witness :
  after (call 9 (Some "down")) (after (call 9 (Some "down")) world_settled) =
  after (call 9 (Some "down")) world_settled.
Proof.
  apply (repeated_call_changes_nothing world_settled 9 5 (Some "down")).
  - reflexivity.
  - reflexivity.
  - discriminate.
Defined.

(** ** Exceptions *)

Section raises.
Context (P : exn → Prop).

Lemma raises_ret {A} (a : A) : raises_only P (ret a).
Proof. by intros w e. Qed.

Lemma raises_raise {A} e : P e → raises_only P (@raise A e).
Proof. intros He w e' [= <-]. done. Qed.

Lemma raises_bind {A B} (m : M A) (k : A → M B) :
  raises_only P m → (∀ a, raises_only P (k a)) → raises_only P (bind m k).
Proof.
  intros Hm Hk w e. specialize (Hm w). unfold outcome, bind in *.
  destruct (m w) as [[a|e'] w']; simpl in *; [apply Hk | intros [= <-]; auto].
Qed.

Lemma raises_try {A} (m : M A) (h : exn → M A) :
  (∀ e, raises_only P (h e)) → raises_only P (try_except m h).
Proof.
  intros Hh w e. unfold outcome, try_except.
  destruct (m w) as [[a|e'] w']; simpl; [done | apply Hh].
Qed.

Lemma raises_reraise {A} (m : M A) :
  raises_only P m → raises_only P (try_except m (fun e => raise e)).
Proof.
  intros Hm w e. specialize (Hm w). unfold outcome, try_except, raise in *.
  destruct (m w) as [[a|e'] w']; simpl in *; [done | intros [= <-]; auto].
Qed.

Lemma raises_for_each {A} (l : list A) (body : A → M unit) :
  (∀ x, raises_only P (body x)) → raises_only P (for_each l body).
Proof.
  intros Hb. induction l as [|x l IH]; simpl.
  - apply raises_ret.
  - by apply raises_bind.
Qed.

Lemma raises_command {A} (f : Redis → result A * Redis) :
  P RedisError → (∀ s e, (f s).1 = Raise e → P e) → raises_only P (command f).
Proof.
  intros HP Hf w e. unfold outcome, command.
  destruct (faults w) as [|[] fs]; simpl; [|by intros [= <-]|];
    specialize (Hf (store w) e); by destruct (f (store w)).
Qed.

Lemma raises_get_once : raises_only P get_once.
Proof. by intros w e. Qed.

Lemma raises_set_once v : raises_only P (set_once v).
Proof. by intros w e. Qed.

Lemma raises_log_write d : raises_only P (log_write d).
Proof. by intros w e. Qed.

Lemma raises_subscript d key : P KeyError → raises_only P (subscript d key).
Proof.
  intros HP. unfold subscript. destruct (d !! key);
    [apply raises_ret | by apply raises_raise].
Qed.

Lemma raises_int_of v : P ValueError → raises_only P (int_of v).
Proof.
  intros HP. unfold int_of. destruct (py_int v);
    [apply raises_ret | by apply raises_raise].
Qed.

Lemma raises_local {A} (v : option A) :
  P UnboundLocalError → raises_only P (local v).
Proof.
  intros HP. unfold local. destruct v;
    [apply raises_ret | by apply raises_raise].
Qed.
End raises.

(** Splits a program into its commands, for the exceptions it can raise. *)
Ltac raise_step :=
  lazymatch goal with
  | |- raises_only _ (bind _ _) => apply raises_bind; [|intros ?]
  | |- raises_only _ (try_except _ (fun e => raise e)) => apply raises_reraise
  | |- raises_only _ (try_except _ _) => apply raises_try; intros ?
  | |- raises_only _ (for_each _ _) => apply raises_for_each; intros ?
  | |- raises_only _ (ret _) => apply raises_ret
  | |- raises_only _ (raise _) => apply raises_raise
  | |- raises_only _ get_once => apply raises_get_once
  | |- raises_only _ (set_once _) => apply raises_set_once
  | |- raises_only _ (log_write _) => apply raises_log_write
  | |- raises_only _ (subscript _ _) => apply raises_subscript
  | |- raises_only _ (int_of _) => apply raises_int_of
  | |- raises_only _ (local _) => apply raises_local
  | |- raises_only _ (if ?b then _ else _) => destruct b
  | |- raises_only _ (match ?x with _ => _ end) => destruct x
  | |- raises_only _ (let (_, _) := ?x in _) => destruct x
  end.

Ltac raise_command :=
  unfold redis_zrangebyscore, redis_zrevrangebyscore, redis_zrem, redis_zadd,
    redis_zrange_all, redis_hget_intended, redis_hset_intended,
    redis_hdel_intended, redis_get_current_floor, redis_set_current_floor,
    redis_type_state, redis_delete_state, redis_hgetall_state,
    redis_hmset_state;
  apply raises_command;
  [ | let s := fresh "s" in
      intros s ?; simpl; repeat case_match; simpl; intros; simplify_eq ].

Lemma call_raises floor direction :
  raises_only (fun e => e = RedisError ∨ e = ValueError ∨ e = UnboundLocalError)
              (call floor direction).
Proof.
  unfold call, call_body. unfold_service.
  repeat first [raise_step | raise_command]; auto.
Qed.

Lemma car_call_raises floor :
  raises_only (fun e => e = RedisError ∨ e = ValueError) (call floor None).
Proof.
  unfold call, call_body. unfold_service. simpl.
  repeat first [raise_step | raise_command]; auto.
Qed.

Lemma go_to_raises :
  raises_only (fun e => e = RedisError ∨ e = KeyError ∨ e = ValueError) go_to.
Proof.
  unfold_service.
  repeat first [raise_step | raise_command]; auto.
Qed.

(** X8. The exceptions of [call] and of [go_to], whatever the store holds
    and whichever commands fail.  [call] raises nothing but a store error,
    [ValueError] (a 'current_floor' that is no number) and
    [UnboundLocalError]; a call from inside never the last.  [go_to] raises
    nothing but a store error, [KeyError] and [ValueError] (a 'state' hash
    without its fields or with a floor that is no number). *)
Theorem exceptions_of_call_and_go_to (w : World) (floor : Z)
    (direction : option string) (e : exn) :
  (outcome (call floor direction) w = Raise e →
   e = RedisError ∨ e = ValueError ∨ e = UnboundLocalError) ∧
  (outcome (call floor None) w = Raise e → e = RedisError ∨ e = ValueError) ∧
  (outcome go_to w = Raise e → e = RedisError ∨ e = KeyError ∨ e = ValueError).
Proof.
  split_and!; [apply call_raises | apply car_call_raises | apply go_to_raises].
Qed.

Lemma exceptions_of_call_and_go_to_witness :
  outcome (call 5 (Some "up")) world_settled = Raise UnboundLocalError ∧
  (UnboundLocalError = RedisError ∨ UnboundLocalError = ValueError ∨
   UnboundLocalError = UnboundLocalError).
Proof.
  split; [reflexivity|].
  apply (exceptions_of_call_and_go_to world_settled 5 (Some "up") UnboundLocalError).
  reflexivity.
Defined.

(** ** The handlers of the calls *)

(** X9. [POST /go/{floor}], whatever the store holds and whichever commands
    fail: a floor below 1 or above [MAX_FLOOR] is answered with status 400
    and nothing at all changes, the flag [once] included; a floor within the
    bounds is never answered with status 400: the answer is the submitted
    message or, when [call] raises, status 500, and the flag is 0
    afterwards. *)
Theorem go_to_floor_checks_bounds (w : World) (floor : Z) :
  (floor < 1 ∨ MAX_FLOOR < floor →
   go_to_floor floor w = (Raise (HTTPException 400), w)) ∧
  (1 <= floor <= MAX_FLOOR →
   (outcome (go_to_floor floor) w = Ok submitted ∨
    outcome (go_to_floor floor) w = Raise (HTTPException 500)) ∧
   after (go_to_floor floor) w = after (call floor None) w ∧
   once (after (go_to_floor floor) w) = 0).
Proof.
  split; [apply go_to_floor_rejects|].
  intros [H1 Hmax].
  pose proof (car_call_raises floor w) as Hcall.
  assert (go_to_floor floor w =
          match call floor None w with
          | (Ok _, w') => (Ok submitted, w')
          | (Raise _, w') => (Raise (HTTPException 500), w')
          end) as E.
  { unfold go_to_floor, try_except, bind, ret, raise.
    destruct (Z.gtb_spec floor MAX_FLOOR); [lia|].
    destruct (Z.ltb_spec floor 1); [lia|]. simpl.
    unfold outcome in Hcall.
    destruct (call floor None w) as [[r|e] w']; [done|].
    by destruct (Hcall e eq_refl) as [-> | ->]. }
  pose proof (call_resets_once w floor None) as Ho. revert Ho.
  unfold outcome, after. rewrite E.
  destruct (call floor None w) as [[r|e] w']; simpl; auto.
Qed.

Lemma go_to_floor_checks_bounds_witness :
  go_to_floor 0 world_settled = (Raise (HTTPException 400), world_settled) ∧
  go_to_floor 21 world_settled = (Raise (HTTPException 400), world_settled) ∧
  once (after (go_to_floor 20) world_settled) = 0.
Proof.
  split_and!.
  - apply (go_to_floor_checks_bounds world_settled 0). lia.
  - apply (go_to_floor_checks_bounds world_settled 21). unfold MAX_FLOOR. lia.
  - apply (go_to_floor_checks_bounds world_settled 20). unfold MAX_FLOOR. lia.
Defined.

(** X10. [POST /{floor}/up] and [POST /{floor}/down], whatever the store
    holds and whichever commands fail: the answer is the submitted message or
    status 500, never 400.  A floor below 1 gets status 500, the handler's
    own status 400 being caught by its [except Exception] clause, and nothing
    at all changes; for a floor from 1 upward the world is the one [call]
    leaves. *)
Theorem hall_handlers_answer_200_or_500 (w : World) (floor : Z) (direction : string) :
  (outcome (hall floor direction) w = Ok submitted ∨
   outcome (hall floor direction) w = Raise (HTTPException 500)) ∧
  (floor < 1 → hall floor direction w = (Raise (HTTPException 500), w)) ∧
  (1 <= floor →
   after (hall floor direction) w = after (call floor (Some direction)) w ∧
   (outcome (hall floor direction) w = Ok submitted ↔
    ∃ r, outcome (call floor (Some direction)) w = Ok r)).
Proof.
  split_and!.
  - unfold outcome, hall, try_except, bind, ret, raise.
    destruct (floor <? 1); simpl; [by right|].
    destruct (call floor (Some direction) w) as [[r|e] w']; simpl; auto.
  - apply hall_rejects_below_1.
  - intros Hpos. unfold outcome, after, hall, try_except, bind, ret, raise.
    destruct (Z.ltb_spec floor 1); [lia|]. simpl.
    destruct (call floor (Some direction) w) as [[r|e] w']; simpl.
    + split; [done|]. split; eauto.
    + split; [done|]. split; [done|]. by intros [r ?].
Qed.

Lemma hall_handlers_answer_200_or_500_witness :
  go_up 0 world_settled = (Raise (HTTPException 500), world_settled) ∧
  go_down (-4) world_settled = (Raise (HTTPException 500), world_settled) ∧
  (outcome (go_down 7) world_settled = Ok submitted ↔
   ∃ r, outcome (call 7 (Some "down")) world_settled = Ok r).
Proof.
  split_and!.
  - apply (hall_handlers_answer_200_or_500 world_settled 0 "up"). lia.
  - apply (hall_handlers_answer_200_or_500 world_settled (-4) "down"). lia.
  - apply (hall_handlers_answer_200_or_500 world_settled 7 "down"). lia.
Defined.

(** ** Selection of the next floor *)

Lemma nearest_down_in_range q cf t :
  nearest_down q cf = Some t → t ∈ q ∧ 0 <= t <= cf.
Proof.
  unfold nearest_down. intros Ht.
  destruct (filter _ _) as [|x l] eqn:Hf; simplify_eq/=.
  apply (filter_sorted_first (flip Z.le)) in Hf as (Hin & Hle & _);
    [|apply by_score_rev_sorted].
  by apply elem_of_reverse, elem_of_by_score in Hin.
Qed.

Lemma nearest_up_in_range q cf t :
  nearest_up q cf = Some t → t ∈ q ∧ cf <= t.
Proof.
  intros Ht. pose proof (nearest_up_spec q cf) as H. rewrite Ht in H.
  by destruct H as (? & ? & _).
Qed.

(** X11. While the direction is 'up' and the up queue has a member at or
    above the current floor, a tick on a reliable store selects the smallest
    such member, keeps the direction 'up', removes that member from the up
    queue and leaves the down queue alone.  The same holds downward, for the
    largest member of the down queue at or below the current floor. *)
Theorem scan_continues_in_direction (w : World) (cf : Z) :
  faults w = [] →
  ((∃ m, m ∈ k_up (store w) ∧ cf <= m) →
   ∃ t, outcome (choose "up" cf) w = Ok (Some t, "up") ∧
        smallest_from (k_up (store w)) cf (Some t) ∧
        k_up (store (after (choose "up" cf) w)) = k_up (store w) ∖ {[t]} ∧
        k_down (store (after (choose "up" cf) w)) = k_down (store w)) ∧
  ((∀ m, m ∈ k_down (store w) → 0 <= m) →
   (∃ m, m ∈ k_down (store w) ∧ m <= cf) →
   ∃ t, outcome (choose "down" cf) w = Ok (Some t, "down") ∧
        largest_upto (k_down (store w)) cf (Some t) ∧
        k_down (store (after (choose "down" cf) w)) = k_down (store w) ∖ {[t]} ∧
        k_up (store (after (choose "down" cf) w)) = k_up (store w)).
Proof.
  intros Hw. unfold outcome, after. rewrite !choose_reliable by done.
  unfold selection. simpl. split.
  - intros (m & Hm & Hle).
    pose proof (nearest_up_spec (k_up (store w)) cf) as Hu.
    destruct (nearest_up _ _) as [t|]; [by exists t|].
    specialize (Hu m Hm). lia.
  - intros Hpos (m & Hm & Hle).
    pose proof (nearest_down_spec (k_down (store w)) cf Hpos) as Hd.
    destruct (nearest_down _ _) as [t|]; [by exists t|].
    specialize (Hd m Hm). lia.
Qed.

Lemma scan_continues_in_direction_witness :
  ∃ t, outcome (choose "up" 5) world_5_up_scan = Ok (Some t, "up") ∧
       smallest_from (k_up (store world_5_up_scan)) 5 (Some t) ∧
       k_up (store (after (choose "up" 5) world_5_up_scan))
         = k_up (store world_5_up_scan) ∖ {[t]} ∧
       k_down (store (after (choose "up" 5) world_5_up_scan))
         = k_down (store world_5_up_scan).
Proof.
  apply (scan_continues_in_direction world_5_up_scan 5); [reflexivity|].
  exists 7. split; [|lia]. simpl.
  apply elem_of_union_l, elem_of_union_r. by apply elem_of_singleton.
Defined.

(** X12. Reversal at the bottom: with direction 'down', no member of the
    down queue at or below the current floor and a member of the up queue at
    or above it, a tick on a reliable store switches the direction to 'up'
    and selects the smallest such member of the up queue, which leaves that
    queue. *)
Theorem reversal_when_down_exhausted (w : World) (cf : Z) :
  faults w = [] →
  (∀ m, m ∈ k_down (store w) → cf < m) →
  (∃ m, m ∈ k_up (store w) ∧ cf <= m) →
  ∃ t, outcome (choose "down" cf) w = Ok (Some t, "up") ∧
       smallest_from (k_up (store w)) cf (Some t) ∧
       k_up (store (after (choose "down" cf) w)) = k_up (store w) ∖ {[t]} ∧
       k_down (store (after (choose "down" cf) w)) = k_down (store w).
Proof.
  intros Hw Hdown (m & Hm & Hle).
  unfold outcome, after. rewrite choose_reliable by done.
  unfold selection. simpl.
  destruct (nearest_down _ _) as [d|] eqn:Hd.
  { apply nearest_down_in_range in Hd as [Hin ?]. specialize (Hdown d Hin). lia. }
  pose proof (nearest_up_spec (k_up (store w)) cf) as Hu.
  destruct (nearest_up _ _) as [t|]; [by exists t|].
  specialize (Hu m Hm). lia.
Qed.

Lemma reversal_when_down_exhausted_witness :
  ∃ t, outcome (choose "down" 3) world_3_down_exhausted = Ok (Some t, "up") ∧
       smallest_from (k_up (store world_3_down_exhausted)) 3 (Some t) ∧
       k_up (store (after (choose "down" 3) world_3_down_exhausted))
         = k_up (store world_3_down_exhausted) ∖ {[t]} ∧
       k_down (store (after (choose "down" 3) world_3_down_exhausted))
         = k_down (store world_3_down_exhausted).
Proof.
  apply (reversal_when_down_exhausted world_3_down_exhausted 3).
  - reflexivity.
  - simpl. intros m Hm. by apply not_elem_of_empty in Hm.
  - exists 8. split; [|lia]. simpl. by apply elem_of_singleton.
Defined.

(** X13. The floor a tick selects lies in the direction it selects: on a
    reliable store, whatever the direction before, the new direction is 'up'
    with a target from the up queue at or above the current floor, or 'down'
    with a target from the down queue between 0 and the current floor; and
    when no floor is selected the new direction is 'idle' and no queue has
    changed. *)
Theorem target_lies_in_new_direction (w : World) (dir : string) (cf : Z) :
  faults w = [] →
  match outcome (choose dir cf) w with
  | Ok (Some t, nd) =>
      (nd = "up" ∧ t ∈ k_up (store w) ∧ cf <= t) ∨
      (nd = "down" ∧ t ∈ k_down (store w) ∧ 0 <= t <= cf)
  | Ok (None, nd) => nd = "idle" ∧ after (choose dir cf) w = w
  | Raise _ => False
  end.
Proof.
  intros Hw. unfold outcome, after. rewrite choose_reliable by done.
  unfold selection. simpl.
  pose proof (nearest_up_in_range (k_up (store w)) cf) as Hu.
  pose proof (nearest_down_in_range (k_down (store w)) cf) as Hd.
  assert (w = mkWorld (store w) (once w) [] (writes w)) as Ew by by reliable w.
  destruct (String.eqb_spec dir "up") as [->|_];
    [|destruct (String.eqb_spec dir "down") as [->|_]];
    destruct (nearest_up _ _) as [u|];
    destruct (nearest_down _ _) as [d|]; simpl;
    try destruct (_ <=? _);
    try (left; by destruct (Hu _ eq_refl));
    try (right; by destruct (Hd _ eq_refl));
    by reliable w.
Qed.

Lemma target_lies_in_new_direction_witness :
  outcome (choose "idle" 5) world_5_idle = Ok (Some 3, "down") ∧
  ((("down" : string) = "up" ∧ 3 ∈ k_up (store world_5_idle) ∧ 5 <= 3) ∨
   (("down" : string) = "down" ∧ 3 ∈ k_down (store world_5_idle) ∧ 0 <= 3 <= 5)).
Proof.
  split; [reflexivity|].
  exact (target_lies_in_new_direction world_5_idle "idle" 5 eq_refl).
Defined.

(** X14. When the direction is neither 'up' nor 'down' and both queues have
    a candidate (the smallest member of the up queue at or above the current
    floor, the largest member of the down queue between 0 and the current
    floor), a tick on a reliable store takes both candidates out of their
    queues and selects one of them: the other is in its queue no more. *)
Theorem idle_tick_removes_both_candidates (w : World) (dir : string) (cf u d : Z) :
  faults w = [] → dir ≠ "up" → dir ≠ "down" →
  (∀ m, m ∈ k_down (store w) → 0 <= m) →
  smallest_from (k_up (store w)) cf (Some u) →
  largest_upto (k_down (store w)) cf (Some d) →
  let w' := after (choose dir cf) w in
  (outcome (choose dir cf) w = Ok (Some u, "up") ∨
   outcome (choose dir cf) w = Ok (Some d, "down")) ∧
  k_up (store w') = k_up (store w) ∖ {[u]} ∧
  k_down (store w') = k_down (store w) ∖ {[d]} ∧
  (u ∉ k_up (store w')) ∧ (d ∉ k_down (store w')).
Proof.
  intros Hw Hup Hdown Hpos Hu Hd w'. subst w'.
  assert (nearest_up (k_up (store w)) cf = Some u) as Eu.
  { symmetry. apply (smallest_from_unique _ _ _ _ Hu (nearest_up_spec _ _)). }
  assert (nearest_down (k_down (store w)) cf = Some d) as Ed.
  { symmetry. apply (largest_upto_unique _ _ _ _ Hd (nearest_down_spec _ _ Hpos)). }
  destruct (idle_selection_removes_both w dir cf u d Hw Hup Hdown Eu Ed) as [E1 E2].
  rewrite E1, E2. split_and!; try done;
    [|apply not_elem_of_difference; right; by apply elem_of_singleton..].
  unfold outcome. rewrite choose_reliable by done. unfold selection. simpl.
  destruct (String.eqb_spec dir "up"); [done|].
  destruct (String.eqb_spec dir "down"); [done|].
  rewrite Eu, Ed. simpl. destruct (_ <=? _); auto.
Qed.

Lemma idle_tick_removes_both_candidates_witness :
  let w' := after (choose "idle" 5) world_5_idle in
  k_up (store w') = k_up (store world_5_idle) ∖ {[8]} ∧
  k_down (store w') = k_down (store world_5_idle) ∖ {[3]}.
Proof.
  pose proof (idle_tick_removes_both_candidates world_5_idle "idle" 5 8 3) as H.
  destruct H as (_ & H1 & H2 & _).
  - reflexivity.
  - discriminate.
  - discriminate.
  - simpl. intros m ->%elem_of_singleton. lia.
  - simpl. split_and!; [by apply elem_of_singleton | lia |].
    intros m ->%elem_of_singleton. lia.
  - simpl. split_and!; [by apply elem_of_singleton | lia |].
    intros m ->%elem_of_singleton. lia.
  - split; [exact H1 | exact H2].
Defined.

(** ** One tick on a reliable store, exactly *)

Lemma state_dict_covers fl d fl' d' (h : gmap string string) :
  state_dict fl d ∪ (state_dict fl' d' ∪ h) = state_dict fl d ∪ h.
Proof.
  rewrite (assoc_L (∪)). by f_equal.
Qed.

Lemma at_floor_twice fl d fl' d' s :
  at_floor fl d (at_floor fl' d' s) = at_floor fl d s.
Proof. unfold at_floor. simpl. by rewrite state_dict_covers. Qed.

Lemma py_str_nonempty (n : Z) : py_str n ≠ "".
Proof.
  intros E. pose proof (py_int_str n) as H. rewrite E in H.
  vm_compute in H. simplify_eq. 
Qed.

Lemma current_floor_of_at_floor fl d s : current_floor_of (at_floor fl d s) = Some fl.
Proof.
  unfold current_floor_of, at_floor, truthy. simpl.
  destruct (String.eqb_spec (py_str fl) ""); [by destruct (py_str_nonempty fl)|].
  simpl. apply py_int_str.
Qed.

Lemma elevator_state_at_floor fl d s : elevator_state (at_floor fl d s) = Some (fl, d).
Proof. apply (elevator_state_written s). Qed.

Lemma moving_exact (l : list Z) (nd : string) w :
  faults w = [] → is_hash_or_missing (k_state (store w)) → l ≠ [] →
  ∃ s', for_each l (fun fl =>
          set_current_floor fl ;; set_current_state (state_dict fl nd)) w =
        (Ok tt, mkWorld s' (once w) []
                        (writes w ++ map (fun fl => state_dict fl nd) l)) ∧
        ∀ t d, at_floor t d s' = at_floor t d (store w).
Proof.
  revert w. induction l as [|x l IH]; intros w Hw Hty Hl; [done|].
  simpl. unfold bind at 1. unfold bind at 1.
  rewrite set_current_floor_reliable by done.
  rewrite set_current_state_reliable by (by reliable w).
  destruct l as [|y l].
  - simpl. unfold ret. reliable w. eexists. split; [done|].
    intros t d. unfold at_floor. simpl. by rewrite state_dict_covers.
  - match goal with
    | |- context [for_each (y :: l) _ ?w'] =>
        destruct (IH w') as (s' & E & Hs'); [done|done|done|]; rewrite E
    end.
    exists s'. split.
    + simpl. by rewrite <- !(assoc_L (++)).
    + intros t d. rewrite Hs'. reliable w. unfold at_floor. simpl.
      by rewrite state_dict_covers.
Qed.

Lemma travel_exact cf t nd w :
  faults w = [] → is_hash_or_missing (k_state (store w)) →
  travel cf t nd w =
  (Ok tt, mkWorld (at_floor t nd (store w)) (once w) []
                  (writes w ++ map (fun fl => state_dict fl nd) (path cf t nd)
                            ++ [state_dict t nd])).
Proof.
  intros Hw Hty. unfold travel.
  assert (∃ s',
    (if String.eqb nd "down" then
       for_each (range_down cf (t - 1)) (fun fl =>
         set_current_floor fl ;;
         set_current_state (state_dict fl nd))
     else if String.eqb nd "up" then
       for_each (range_up cf (t + 1)) (fun fl =>
         set_current_floor fl ;;
         set_current_state (state_dict fl nd))
     else ret tt) w =
    (Ok tt, mkWorld s' (once w) []
              (writes w ++ map (fun fl => state_dict fl nd) (path cf t nd))) ∧
    is_hash_or_missing (k_state s') ∧
    at_floor t nd s' = at_floor t nd (store w)) as (s' & Hloop & Hty' & Hs').
  { assert (∀ l, ∃ s',
      for_each l (fun fl =>
         set_current_floor fl ;; set_current_state (state_dict fl nd)) w =
      (Ok tt, mkWorld s' (once w) []
                (writes w ++ map (fun fl => state_dict fl nd) l)) ∧
      is_hash_or_missing (k_state s') ∧
      at_floor t nd s' = at_floor t nd (store w)) as Hl.
    { intros l. destruct l as [|x l].
      - exists (store w). simpl. unfold ret. rewrite (right_id_L [] (++)).
        split_and!; [by reliable w | done | done].
      - destruct (moving_exact (x :: l) nd w) as (s' & E & Hs'); [done..|].
        exists s'. split_and!; [done| |done].
        destruct (moving_reliable (x :: l) nd w Hw Hty) as (h & fl & tr & E' & Hh).
        rewrite E in E'. by simplify_eq. }
    unfold path.
    destruct (String.eqb nd "down"); [apply Hl|].
    destruct (String.eqb nd "up"); [apply Hl|].
    exists (store w). simpl. unfold ret. rewrite (right_id_L [] (++)).
    split_and!; [by reliable w | done | done]. }
  unfold bind at 1. rewrite Hloop.
  unfold bind at 1. rewrite set_current_state_reliable by done.
  rewrite set_current_floor_reliable by done.
  simpl. unfold set_store. simpl. rewrite <- Hs'.
  unfold at_floor. simpl. by rewrite <- !(assoc_L (++)).
Qed.

Lemma dispatch_target_exact w cf dir t nd up down :
  faults w = [] → is_hash_or_missing (k_state (store w)) →
  selection dir cf (k_up (store w)) (k_down (store w)) = ((Some t, nd), (up, down)) →
  dispatch cf dir w =
  (Ok tt,
   mkWorld
     ((if truthy (k_intended (store w) !! t) then forget t else id)
        (at_floor t (direction_on_arrival nd t (store w))
                  (set_queues up down (store w))))
     (once w) []
     (writes w ++ map (fun fl => state_dict fl nd) (path cf t nd)
              ++ [state_dict t nd]
              ++ (if truthy (k_intended (store w) !! t)
                  then [state_dict t (direction_on_arrival nd t (store w))]
                  else []))).
Proof.
  intros Hw Hty Hsel. unfold dispatch. unfold bind at 1.
  rewrite choose_reliable by done. rewrite Hsel. cbv zeta. simpl fst. simpl snd.
  unfold bind at 1.
  rewrite travel_exact by (by reliable w). unfold direction_on_arrival.
  destruct (truthy (k_intended (store w) !! t)) eqn:Htr.
  - destruct (k_intended (store w) !! t) as [d|] eqn:Hd; [|done].
    apply truthy_Some in Htr.
    rewrite (arrive_registered t d) by (by reliable w).
    reliable w. unfold forget, at_floor, set_queues. simpl.
    rewrite state_dict_covers. by rewrite <- !(assoc_L (++)).
  - rewrite arrive_unregistered by (by reliable w).
    reliable w. simpl. by rewrite ?(right_id_L [] (++)).
Qed.

Lemma read_frame w :
  faults w = [] →
  faults (read w) = [] ∧ is_hash_or_missing (k_state (store (read w))) ∧
  k_current_floor (store (read w)) = k_current_floor (store w) ∧
  k_up (store (read w)) = k_up (store w) ∧
  k_down (store (read w)) = k_down (store w) ∧
  k_intended (store (read w)) = k_intended (store w) ∧
  once (read w) = once w.
Proof.
  intros Hw.
  destruct (get_current_state_reliable w Hw) as (H1 & H2 & H3 & H4 & H5 & H6 & _).
  split_and!; try done.
  unfold read, after.
  destruct (k_state (store w)) as [[h|ty]|] eqn:Hs.
  - destruct (decide (h = ∅)) as [->|Hne].
    + by rewrite get_current_state_reset by (by rewrite ?Hs).
    + by rewrite (get_current_state_present w h).
  - by rewrite get_current_state_reset by (by rewrite ?Hs).
  - by rewrite get_current_state_reset by (by rewrite ?Hs).
Qed.

Lemma tick_target_exact w cf dir t nd up down :
  faults w = [] → elevator_state (store (read w)) = Some (cf, dir) →
  selection dir cf (k_up (store w)) (k_down (store w)) = ((Some t, nd), (up, down)) →
  go_to w =
  (Ok tt,
   mkWorld
     ((if truthy (k_intended (store w) !! t) then forget t else id)
        (at_floor t (direction_on_arrival nd t (store w))
                  (set_queues up down (store (read w)))))
     (once w) []
     (writes (read w) ++ map (fun fl => state_dict fl nd) (path cf t nd)
              ++ [state_dict t nd]
              ++ (if truthy (k_intended (store w) !! t)
                  then [state_dict t (direction_on_arrival nd t (store w))]
                  else []))).
Proof.
  intros Hw Hs Hsel. rewrite (go_to_after_read w cf dir) by done.
  destruct (read_frame w Hw) as (Hw0 & Hty0 & _ & Hup & Hdown & Hreg & Ho).
  rewrite <- Hup, <- Hdown in Hsel.
  rewrite (dispatch_target_exact (read w) cf dir t nd up down) by done.
  unfold direction_on_arrival. by rewrite Hreg, Ho.
Qed.

Lemma tick_idle_exact w cf dir nd up down :
  faults w = [] → elevator_state (store (read w)) = Some (cf, dir) →
  selection dir cf (k_up (store w)) (k_down (store w)) = ((None, nd), (up, down)) →
  go_to w =
  if once w =? 1 then (Ok tt, read w)
  else (Ok tt, mkWorld (set_state_hash (state_dict cf "idle"
                                          ∪ hash_of (k_state (store (read w))))
                                       (store (read w)))
                       1 [] (writes (read w) ++ [state_dict cf "idle"])).
Proof.
  intros Hw Hs Hsel.
  destruct (read_frame w Hw) as (Hw0 & Hty0 & _ & Hup & Hdown & Hreg & Ho).
  rewrite (tick_no_target w cf dir nd); [|done|done|].
  - destruct (Z.eqb_spec (once w) 1) as [E|E].
    + apply settle_again. by rewrite Ho.
    + rewrite settle_first by (by rewrite ?Ho). done.
  - unfold outcome. rewrite choose_reliable by done.
    rewrite Hup, Hdown, Hsel. done.
Qed.

Lemma elem_of_range_up a b x : x ∈ range_up a b ↔ a <= x < b.
Proof.
  unfold range_up. rewrite list_elem_of_fmap. split.
  - intros (i & -> & Hi). apply elem_of_seq in Hi. lia.
  - intros H. exists (Z.to_nat (x - a)). split; [lia|]. apply elem_of_seq. lia.
Qed.

Lemma elem_of_range_down a b x : x ∈ range_down a b ↔ b < x <= a.
Proof.
  unfold range_down. rewrite list_elem_of_fmap. split.
  - intros (i & -> & Hi). apply elem_of_seq in Hi. lia.
  - intros H. exists (Z.to_nat (a - x)). split; [lia|]. apply elem_of_seq. lia.
Qed.

Lemma range_up_sorted a b : StronglySorted Z.lt (range_up a b).
Proof.
  unfold range_up. generalize (Z.to_nat (b - a)) as n. generalize 0%nat as k.
  intros k n. revert k. induction n as [|n IH]; intros k; simpl; constructor.
  - apply IH.
  - apply Forall_forall. intros x (i & -> & Hi)%list_elem_of_fmap.
    apply elem_of_seq in Hi. lia.
Qed.

Lemma range_down_sorted a b : StronglySorted (flip Z.lt) (range_down a b).
Proof.
  unfold range_down. generalize (Z.to_nat (a - b)) as n. generalize 0%nat as k.
  intros k n. revert k. induction n as [|n IH]; intros k; simpl; constructor.
  - apply IH.
  - apply Forall_forall. intros x (i & -> & Hi)%list_elem_of_fmap.
    apply elem_of_seq in Hi. unfold flip. lia.
Qed.

Lemma selection_of_choose w dir cf t nd :
  faults w = [] → outcome (choose dir cf) (read w) = Ok (Some t, nd) →
  ∃ up down,
    selection dir cf (k_up (store w)) (k_down (store w)) = ((Some t, nd), (up, down)) ∧
    k_up (store (after (choose dir cf) (read w))) = up ∧
    k_down (store (after (choose dir cf) (read w))) = down.
Proof.
  intros Hw. destruct (read_frame w Hw) as (Hw0 & _ & _ & Hup & Hdown & _).
  unfold outcome, after. rewrite choose_reliable by done.
  rewrite Hup, Hdown. cbv zeta.
  destruct (selection _ _ _ _) as [[o nd'] [up down]]. simpl.
  intros [= -> ->]. by exists up, down.
Qed.

Lemma selection_in_direction dir cf up down t nd rest :
  selection dir cf up down = ((Some t, nd), rest) →
  (nd = "up" ∧ t ∈ up ∧ cf <= t) ∨ (nd = "down" ∧ t ∈ down ∧ 0 <= t <= cf).
Proof.
  unfold selection.
  pose proof (nearest_up_in_range up cf) as Hu.
  pose proof (nearest_down_in_range down cf) as Hd.
  destruct (String.eqb_spec dir "up") as [->|_];
    [|destruct (String.eqb_spec dir "down") as [->|_]];
    destruct (nearest_up _ _) as [u|];
    destruct (nearest_down _ _) as [d|]; simpl;
    try destruct (_ <=? _);
    intros [= <- <- <-];
    try (left; by destruct (Hu _ eq_refl));
    try (right; by destruct (Hd _ eq_refl)).
Qed.

(** X15. A tick that selects floor [t] on a reliable store with a readable
    state ends normally with the cab recorded at [t] both in the state hash
    and under 'current_floor', showing the direction recorded for [t] by a
    call from outside, else the direction of travel; the queues are as the
    selection left them, and the flag [once] is as before. *)
Theorem tick_serves_selected_floor (w : World) (cf t : Z) (dir nd : string) :
  faults w = [] →
  elevator_state (store (read w)) = Some (cf, dir) →
  outcome (choose dir cf) (read w) = Ok (Some t, nd) →
  let w' := after go_to w in
  outcome go_to w = Ok tt ∧
  elevator_state (store w') = Some (t, direction_on_arrival nd t (store w)) ∧
  current_floor_of (store w') = Some t ∧
  k_up (store w') = k_up (store (after (choose dir cf) (read w))) ∧
  k_down (store w') = k_down (store (after (choose dir cf) (read w))) ∧
  once w' = once w.
Proof.
  intros Hw Hs Hc w'. subst w'.
  destruct (selection_of_choose w dir cf t nd Hw Hc) as (up & down & Hsel & -> & ->).
  unfold outcome, after.
  rewrite (tick_target_exact w cf dir t nd up down) by done.
  cbn [fst snd store once].
  assert (∀ s, elevator_state (forget t s) = elevator_state s) as E1 by done.
  assert (∀ s, current_floor_of (forget t s) = current_floor_of s) as E2 by done.
  destruct (truthy (k_intended (store w) !! t)); unfold id;
    by rewrite ?E1, ?E2, elevator_state_at_floor, current_floor_of_at_floor.
Qed.

Lemma tick_serves_selected_floor_witness :
  elevator_state (store (after go_to world_7_up_to_10)) = Some (10, "down") ∧
  current_floor_of (store (after go_to world_7_up_to_10)) = Some 10 ∧
  k_up (store (after go_to world_7_up_to_10)) = {[12]}.
Proof.
  destruct (tick_serves_selected_floor world_7_up_to_10 7 10 "up" "up")
    as (_ & H1 & H2 & H3 & _).
  - reflexivity.
  - reflexivity.
  - reflexivity.
  - split_and!; [exact H1 | exact H2 |].
    rewrite H3. by vm_compute.
Defined.

(** X16. On the way to the selected floor the cab is written at every floor
    from the current one to the target, in order and each once, under the
    direction of travel; then the target is written once more, and once again
    under the recorded direction when a call from outside left one.  After
    the read of the state, the tick writes nothing else to it. *)
Theorem cab_is_written_at_every_floor_on_the_way (w : World) (cf t : Z) (dir nd : string) :
  faults w = [] →
  elevator_state (store (read w)) = Some (cf, dir) →
  outcome (choose dir cf) (read w) = Ok (Some t, nd) →
  writes (after go_to w) =
    writes (read w) ++ map (fun fl => state_dict fl nd) (path cf t nd)
      ++ [state_dict t nd]
      ++ (if truthy (k_intended (store w) !! t)
          then [state_dict t (direction_on_arrival nd t (store w))] else []) ∧
  ((nd = "up" ∧ cf <= t ∧ (∀ fl, fl ∈ path cf t nd ↔ cf <= fl <= t) ∧
    StronglySorted Z.lt (path cf t nd)) ∨
   (nd = "down" ∧ t <= cf ∧ (∀ fl, fl ∈ path cf t nd ↔ t <= fl <= cf) ∧
    StronglySorted (flip Z.lt) (path cf t nd))).
Proof.
  intros Hw Hs Hc.
  destruct (selection_of_choose w dir cf t nd Hw Hc) as (up & down & Hsel & _).
  split.
  - unfold after. by rewrite (tick_target_exact w cf dir t nd up down).
  - apply selection_in_direction in Hsel as Ht. unfold path.
    destruct Ht as [(-> & _ & Hle)|(-> & _ & Hle)]; [left|right]; simpl.
    + split_and!; [done|done| |apply range_up_sorted].
      intros fl. rewrite elem_of_range_up. lia.
    + split_and!; [done|lia| |apply range_down_sorted].
      intros fl. rewrite elem_of_range_down. lia.
Qed.

Lemma cab_is_written_at_every_floor_on_the_way_witness :
  writes (after go_to world_7_up_to_10) =
    [state_dict 7 "up"; state_dict 8 "up"; state_dict 9 "up"; state_dict 10 "up";
     state_dict 10 "up"; state_dict 10 "down"].
Proof.
  destruct (cab_is_written_at_every_floor_on_the_way world_7_up_to_10 7 10 "up" "up")
    as [H _].
  - reflexivity.
  - reflexivity.
  - reflexivity.
  - rewrite H. reflexivity.
Defined.

(** ** What holds between requests *)

Lemma cab_read w cf d :
  faults w = [] → cab (store w) = Some (cf, d) →
  elevator_state (store (read w)) = Some (cf, d).
Proof.
  intros Hw Hc. unfold cab in Hc.
  destruct (k_state (store w)) as [v|] eqn:Hs.
  - destruct (get_current_state_reliable w Hw) as (_ & _ & _ & _ & _ & _ & _ & E).
    by rewrite E by (by rewrite Hc).
  - simplify_eq. unfold read, after.
    rewrite get_current_state_reset by (by rewrite ?Hs). simpl.
    unfold default_state. rewrite <- (right_id_L ∅ (∪) (state_dict 1 "idle")).
    apply elevator_state_written.
Qed.

Lemma handler_world_of_call w floor direction :
  1 <= floor →
  after (hall floor direction) w = after (call floor (Some direction)) w.
Proof.
  intros Hf. unfold after, hall, try_except, bind.
  destruct (Z.ltb_spec floor 1); [lia|]. unfold ret at 1.
  by destruct (call floor (Some direction) w) as [[?|?] ?].
Qed.

Lemma go_to_floor_world_of_call w floor :
  1 <= floor <= MAX_FLOOR →
  after (go_to_floor floor) w = after (call floor None) w.
Proof.
  intros Hf. unfold after, go_to_floor, try_except, bind.
  destruct (Z.gtb_spec floor MAX_FLOOR); [lia|].
  destruct (Z.ltb_spec floor 1); [lia|]. simpl. unfold ret.
  destruct (call floor None w) as [[?|e] ?]; [done|]. by destruct e.
Qed.

Lemma consistent_queues s up down :
  consistent s → (∀ m, m ∈ up ∨ m ∈ down → 1 <= m) →
  consistent (mkRedis (k_state s) (k_current_floor s) up down (k_intended s)).
Proof. intros (Hc & _ & Hr) Hq. by split_and!. Qed.

Lemma cab_of_elevator_state s x : elevator_state s = Some x → cab s = Some x.
Proof.
  unfold cab, elevator_state. by destruct (k_state s).
Qed.

Lemma call_keeps_consistent w floor direction :
  faults w = [] → consistent (store w) → 1 <= floor →
  direction = None ∨ direction = Some "up" ∨ direction = Some "down" →
  faults (after (call floor direction) w) = [] ∧
  consistent (store (after (call floor direction) w)).
Proof.
  intros Hw Hcons Hf Hd.
  pose proof Hcons as ((cf & d & Hcab & Hcf & Hpos & Hdir) & Hq & Hr).
  unfold after.
  assert (∀ d', d' = "up" ∨ d' = "down" → d' ≠ "") as Hne.
  { by intros d' [-> | ->]. }
  assert (∀ up down : gset Z, (∀ m, m ∈ up ∨ m ∈ down → 1 <= m) →
          ∀ m, m ∈ {[floor]} ∪ up ∨ m ∈ down → 1 <= m) as Hq1.
  { intros up down H m [[->%elem_of_singleton|?]%elem_of_union|?]; auto. }
  assert (∀ up down : gset Z, (∀ m, m ∈ up ∨ m ∈ down → 1 <= m) →
          ∀ m, m ∈ up ∨ m ∈ {[floor]} ∪ down → 1 <= m) as Hq2.
  { intros up down H m [?|[->%elem_of_singleton|?]%elem_of_union]; auto. }
  destruct Hd as [->|Hd].
  - rewrite (car_call_reliable w floor cf) by done.
    destruct (cf =? floor); simpl; [done|]. split; [done|].
    apply consistent_queues; [done|].
    destruct (cf <? floor); [by apply Hq1 | by apply Hq2].
  - assert (∃ d', direction = Some d' ∧ (d' = "up" ∨ d' = "down")) as (d' & -> & Hd').
    { destruct Hd as [-> | ->]; eauto. }
    destruct (decide (floor = cf)) as [->|Hneq].
    + by rewrite (hall_call_at_floor w d' cf) by auto.
    + rewrite (hall_call_reliable w floor d' cf) by auto. simpl.
      split; [done|]. split_and!.
      * by exists cf, d.
      * intros m. simpl. destruct (floor >? cf); [by apply Hq1 | by apply Hq2].
      * intros f d0. simpl. intros [[_ <-]|[_ ?]]%lookup_insert_Some; eauto.
Qed.

Lemma tick_keeps_consistent w :
  faults w = [] → consistent (store w) →
  outcome go_to w = Ok tt ∧ faults (after go_to w) = [] ∧
  consistent (store (after go_to w)).
Proof.
  intros Hw Hcons.
  pose proof Hcons as ((cf & d & Hcab & Hcf & Hpos & Hdir) & Hq & Hr).
  pose proof (cab_read w cf d Hw Hcab) as Hs.
  destruct (read_frame w Hw) as (Hw0 & Hty0 & Hfl & _).
  assert (current_floor_of (store (read w)) = Some cf) as Hcf0.
  { unfold current_floor_of in *. by rewrite Hfl. }
  assert (floors_positive (store (after go_to w)) ∧
          ∀ f d, k_intended (store (after go_to w)) !! f = Some d →
                 d = "up" ∨ d = "down") as [Hq' Hr'].
  { split.
    - by apply service_keeps_floors_positive.
    - intros f d0 H. apply (Hr f).
      by eapply lookup_weaken, go_to_keeps_or_deletes_intended. }
  destruct (selection d cf (k_up (store w)) (k_down (store w)))
    as [[[t|] nd] [up down]] eqn:Hsel.
  - revert Hq' Hr'. unfold outcome, after.
    rewrite (tick_target_exact w cf d t nd up down) by done.
    cbn [fst snd store faults]. intros Hq' Hr'.
    split; [done|]. split; [done|]. split_and!; [|done|done].
    exists t, (direction_on_arrival nd t (store w)).
    assert (∀ s, cab (forget t s) = cab s) as E1 by done.
    assert (∀ s, current_floor_of (forget t s) = current_floor_of s) as E2 by done.
    apply selection_in_direction in Hsel as Ht.
    split_and!.
    + destruct (truthy _); unfold id; rewrite ?E1;
        apply cab_of_elevator_state, elevator_state_at_floor.
    + destruct (truthy _); unfold id; rewrite ?E2;
        apply current_floor_of_at_floor.
    + destruct Ht as [(_ & Hin & _)|(_ & Hin & _)]; apply Hq; auto.
    + unfold direction_on_arrival.
      destruct (truthy _) eqn:Htr.
      * destruct (k_intended (store w) !! t) as [d0|] eqn:Hd0; [|done].
        simpl. destruct (Hr t d0 Hd0) as [-> | ->]; auto.
      * destruct Ht as [(-> & _)|(-> & _)]; auto.
  - revert Hq' Hr'. unfold outcome, after.
    rewrite (tick_idle_exact w cf d nd up down) by done.
    destruct (once w =? 1); cbn [fst snd store faults]; intros Hq' Hr'.
    + split; [done|]. split; [done|]. split_and!; [|done|done].
      exists cf, d. split_and!; [by apply cab_of_elevator_state|done..].
    + split; [done|]. split; [done|]. split_and!; [|done|done].
      exists cf, "idle". split_and!; [|done|done|auto].
      apply cab_of_elevator_state, elevator_state_written.
Qed.

Lemma serve_keeps_consistent r w :
  faults w = [] → consistent (store w) →
  faults (serve r w) = [] ∧ consistent (store (serve r w)).
Proof.
  intros Hw Hcons. destruct r as [floor|floor|floor|]; simpl.
  - destruct (decide (1 <= floor <= MAX_FLOOR)) as [Hf|Hf].
    + rewrite go_to_floor_world_of_call by done.
      apply call_keeps_consistent; auto. lia.
    + unfold after. by rewrite go_to_floor_rejects by lia.
  - unfold go_up. destruct (Z.ltb_spec floor 1).
    + unfold after. by rewrite hall_rejects_below_1.
    + rewrite handler_world_of_call by done.
      apply call_keeps_consistent; auto.
  - unfold go_down. destruct (Z.ltb_spec floor 1).
    + unfold after. by rewrite hall_rejects_below_1.
    + rewrite handler_world_of_call by done.
      apply call_keeps_consistent; auto.
  - by apply tick_keeps_consistent.
Qed.

(** X17. Between requests the store stays consistent.  Starting from a
    consistent store without failures, after any sequence of car calls, hall
    calls and ticks handled one after the other: 'current_floor' and the
    'state' hash name the same floor, which is 1 or more; the direction shown
    is 'up', 'down' or 'idle'; every queued floor is 1 or more; and every
    direction on record is 'up' or 'down'. *)
Theorem requests_keep_store_consistent (rs : list request) (w : World) :
  faults w = [] → consistent (store w) →
  faults (serve_all rs w) = [] ∧ consistent (store (serve_all rs w)).
Proof.
  revert w. induction rs as [|r rs IH]; intros w Hw Hcons; [done|].
  simpl. destruct (serve_keeps_consistent r w Hw Hcons) as [Hw' Hcons'].
  by apply IH.
Qed.

Lemma requests_keep_store_consistent_witness :
  consistent (store (serve_all [Up 5; Tick; Go 3; Down 25; Tick; Tick] world0)).
Proof.
  apply (requests_keep_store_consistent [Up 5; Tick; Go 3; Down 25; Tick; Tick] world0).
  - reflexivity.
  - split_and!.
    + exists 1, "idle". split_and!; [reflexivity | reflexivity | lia | auto].
    + intros m [Hm|Hm]; simpl in Hm; by apply not_elem_of_empty in Hm.
    + intros f d Hd. simpl in Hd. by rewrite lookup_empty in Hd.
Defined.

(** ** What a request never does, whatever fails *)

Lemma call_frame (Q : Redis → Prop) :
  (∀ s q n, Q s → Q (with_zset q ({[n]} ∪ zset q s) s)) →
  (∀ s f d, Q s → Q (mkRedis (k_state s) (k_current_floor s) (k_up s) (k_down s)
                             (<[f := d]> (k_intended s)))) →
  ∀ floor direction, preserves (fun s _ => Q s) (call floor direction).
Proof.
  intros Hadd Hset floor direction. unfold call, call_body. unfold_service.
  repeat first [step | by apply preserves_set_once].
  all: unfold redis_zadd, redis_hset_intended, redis_get_current_floor,
         redis_zrange_all;
       apply preserves_command; intros s o HQ; simpl; auto.
Qed.

Lemma handlers_frame (Q : Redis → Prop) :
  (∀ floor direction, preserves (fun s _ => Q s) (call floor direction)) →
  (∀ floor, preserves (fun s _ => Q s) (go_to_floor floor)) ∧
  (∀ floor direction, preserves (fun s _ => Q s) (hall floor direction)).
Proof.
  intros Hcall. split; intros floor; [|intros direction];
    unfold go_to_floor, hall; repeat first [step | by apply Hcall].
Qed.

(** X18. A request from a handler never moves the cab and never takes a floor
    out of a queue, whatever store commands fail: after [POST /go/{floor}],
    [POST /{floor}/up] or [POST /{floor}/down] the 'state' value and
    'current_floor' are as before, and both queues contain what they
    contained. *)
Theorem handlers_only_add_to_queues (w : World) (floor : Z) :
  ∀ w', w' = after (go_to_floor floor) w ∨ w' = after (go_up floor) w ∨
        w' = after (go_down floor) w →
  k_state (store w') = k_state (store w) ∧
  k_current_floor (store w') = k_current_floor (store w) ∧
  k_up (store w) ⊆ k_up (store w') ∧
  k_down (store w) ⊆ k_down (store w').
Proof.
  set (Q := fun s : Redis =>
    k_state s = k_state (store w) ∧
    k_current_floor s = k_current_floor (store w) ∧
    k_up (store w) ⊆ k_up s ∧ k_down (store w) ⊆ k_down s).
  assert (∀ floor direction, preserves (fun s _ => Q s) (call floor direction)) as Hcall.
  { apply call_frame.
    - intros s q n (H1 & H2 & H3 & H4). unfold Q, with_zset, zset.
      destruct s. simpl in *. repeat case_match; simpl;
        split_and!; try done; by apply union_subseteq_r'.
    - intros s f d HQ. exact HQ. }
  destruct (handlers_frame Q Hcall) as [Hgo Hhall].
  assert (Q (store w)) as HQ by done.
  intros w' [-> | [-> | ->]].
  - by apply (Hgo floor w).
  - by apply (Hhall floor "up" w).
  - by apply (Hhall floor "down" w).
Qed.

Lemma handlers_only_add_to_queues_witness :
  k_state (store (after (go_up 9) world_5_idle)) = k_state (store world_5_idle) ∧
  k_current_floor (store (after (go_up 9) world_5_idle))
    = k_current_floor (store world_5_idle) ∧
  k_up (store world_5_idle) ⊆ k_up (store (after (go_up 9) world_5_idle)) ∧
  k_down (store world_5_idle) ⊆ k_down (store (after (go_up 9) world_5_idle)).
Proof.
  apply (handlers_only_add_to_queues world_5_idle 9). right. left. reflexivity.
Defined.

(** X19. A tick never puts a floor into a queue and never records an
    intended direction, whatever store commands fail: after [go_to] both
    queues and the record of intended directions are contained in what they
    were. *)
Theorem tick_only_takes_from_queues (w : World) :
  k_up (store (after go_to w)) ⊆ k_up (store w) ∧
  k_down (store (after go_to w)) ⊆ k_down (store w) ∧
  k_intended (store (after go_to w)) ⊆ k_intended (store w).
Proof.
  assert (preserves (fun s _ => k_up s ⊆ k_up (store w) ∧
                               k_down s ⊆ k_down (store w)) go_to) as H.
  { unfold_service.
    repeat first [step | by apply preserves_set_once].
    all: try (by command_effect).
    all: command_effect;
      match goal with H : _ ∧ _ |- _ => destruct H as [Hu Hd] end;
      (split; [try done | try done]);
      by etrans; [apply subseteq_difference_l|]. }
  destruct (H w) as [Hu Hd]; [done|].
  split_and!; [done|done|apply go_to_keeps_or_deletes_intended].
Qed.

(** ** The simulation loop *)

Lemma tick_keeps_readable w :
  faults w = [] → is_Some (elevator_state (store (read w))) →
  outcome go_to w = Ok tt ∧ faults (after go_to w) = [] ∧
  is_Some (elevator_state (store (read (after go_to w)))).
Proof.
  intros Hw [[cf d] Hs].
  destruct (read_frame w Hw) as (Hw0 & _).
  assert (outcome go_to w = Ok tt ∧ faults (after go_to w) = [] ∧
          is_Some (elevator_state (store (after go_to w)))) as (H1 & H2 & H3).
  { unfold outcome, after.
    destruct (selection d cf (k_up (store w)) (k_down (store w)))
      as [[[t|] nd] [up down]] eqn:Hsel.
    - rewrite (tick_target_exact w cf d t nd up down) by done.
      cbn [fst snd store faults]. split_and!; [done|done|].
      assert (∀ s, elevator_state (forget t s) = elevator_state s) as E1 by done.
      destruct (truthy _); unfold id; rewrite ?E1, elevator_state_at_floor; eauto.
    - rewrite (tick_idle_exact w cf d nd up down) by done.
      destruct (once w =? 1); cbn [fst snd store faults].
      + split_and!; [done|done|eauto].
      + split_and!; [done|done|]. rewrite elevator_state_written. eauto. }
  split_and!; [done|done|].
  destruct (get_current_state_reliable (after go_to w) H2)
    as (_ & _ & _ & _ & _ & _ & _ & E).
  by rewrite E.
Qed.

Lemma simulation_loop_ticks n rest w :
  faults w = [] → is_Some (elevator_state (store (read w))) →
  simulation_loop (replicate n false ++ rest) (mkServer w true) =
  simulation_loop rest (mkServer (ticks n w) true) ∧
  faults (ticks n w) = [] ∧
  is_Some (elevator_state (store (read (ticks n w)))).
Proof.
  revert w. induction n as [|n IH]; intros w Hw Hs; [done|].
  destruct (tick_keeps_readable w Hw Hs) as (H1 & H2 & H3).
  simpl. unfold outcome in H1. unfold after in IH, H2, H3 |- *.
  destruct (go_to w) as [r w'] eqn:E. simpl in *. subst r.
  by apply IH.
Qed.

(** X20. While no store command fails and the state is readable, the
    simulation loop never stops by itself: [n] rounds without a stop request
    perform exactly [n] ticks and leave the loop running.  A stop request
    arriving during a round is honoured when that round's tick is done: the
    loop ends with the flag cleared, after which the status is 'not running'
    and a further stop request is answered 'Simulation is not running'. *)
Theorem simulation_runs_until_stopped (s : Server) (n : nat) (rest : list bool) :
  faults (world s) = [] →
  is_Some (elevator_state (store (read (world s)))) →
  run_elevator_simulation (replicate n false) s = mkServer (ticks n (world s)) true ∧
  let stopped := run_elevator_simulation (replicate n false ++ true :: rest) s in
  stopped = mkServer (ticks (S n) (world s)) false ∧
  simulation_status stopped = false ∧
  stop_simulation stopped = ("Simulation is not running", stopped).
Proof.
  intros Hw Hs. unfold run_elevator_simulation. split.
  - destruct (simulation_loop_ticks n [] (world s) Hw Hs) as (E & _).
    rewrite (right_id_L [] (++)) in E. by rewrite E.
  - destruct (simulation_loop_ticks n (true :: rest) (world s) Hw Hs) as (E & Hw' & Hs').
    cbv zeta. rewrite E.
    assert (simulation_loop (true :: rest) (mkServer (ticks n (world s)) true)
            = mkServer (ticks (S n) (world s)) false) as ->; [|done].
    destruct (tick_keeps_readable _ Hw' Hs') as (H1 & _).
    assert (ticks (S n) (world s) = after go_to (ticks n (world s))) as ->.
    { clear. generalize (world s) as w. induction n as [|n IH]; intros w; [done|].
      simpl in *. by rewrite IH. }
    simpl. unfold outcome in H1. unfold after.
    destruct (go_to (ticks n (world s))) as [r w'] eqn:E'. simpl in *. subst r.
    by destruct rest.
Qed.

Lemma simulation_runs_until_stopped_witness :
  run_elevator_simulation [false; false] (mkServer world_7_up_to_10 false)
    = mkServer (ticks 2 world_7_up_to_10) true ∧
  run_elevator_simulation [false; false; true; false] (mkServer world_7_up_to_10 false)
    = mkServer (ticks 3 world_7_up_to_10) false.
Proof.
  destruct (simulation_runs_until_stopped (mkServer world_7_up_to_10 false) 2 [false])
    as (H1 & H2 & _).
  - reflexivity.
  - by eexists.
  - split; [exact H1 | exact H2].
Defined.



(** ** Failures in the middle of an operation *)

Lemma get_next_floor_empty direction cf s o fs tr :
  zset direction s = ∅ →
  get_next_floor direction cf (mkWorld s o (false :: fs) tr) =
  (Ok None, mkWorld s o (if String.eqb direction "up" then fs
                         else if String.eqb direction "down" then fs
                         else false :: fs) tr).
Proof.
  intros Hq. unfold get_next_floor.
  destruct (String.eqb direction "up") eqn:E1;
    [|destruct (String.eqb direction "down") eqn:E2]; [| |done].
  - unfold redis_zrangebyscore, command, bind. simpl. rewrite Hq.
    unfold by_score. by rewrite elements_empty.
  - unfold redis_zrevrangebyscore, command, bind. simpl. rewrite Hq.
    unfold by_score. by rewrite elements_empty.
Qed.

Lemma choose_empty_queues dir cf s o fs tr :
  k_up s = ∅ → k_down s = ∅ →
  choose dir cf (mkWorld s o (false :: false :: fs) tr) =
  (Ok (None, "idle"), mkWorld s o fs tr).
Proof.
  intros Hu Hd. unfold choose.
  destruct (String.eqb dir "up"); [|destruct (String.eqb dir "down")];
    unfold bind at 1;
    rewrite get_next_floor_empty by done; simpl;
    unfold bind at 1;
    rewrite get_next_floor_empty by done; simpl; done.
Qed.

Lemma get_current_state_two_commands s o fs tr h :
  k_state s = Some (StHash h) → h ≠ ∅ →
  get_current_state (mkWorld s o (false :: false :: fs) tr) =
  (Ok h, mkWorld s o fs tr).
Proof.
  intros Hs Hne. destruct s. simpl in *. subst.
  unfold get_current_state. run. by case_decide.
Qed.

(** X22. The idle write of a tick is not retried when it fails.  [go_to]
    sets [once] to 1 before it writes; when the store fails exactly at that
    write (the fifth command of a tick that finds both queues empty), the
    tick raises [RedisError] with the store unchanged and [once] set, and on
    the then reliable store every further tick writes nothing: the state goes
    on showing the direction it had. *)
Theorem failed_idle_write_is_not_retried (w : World) (cf : Z) (dir : string) :
  faults w = [false; false; false; false; true] →
  elevator_state (store w) = Some (cf, dir) →
  k_up (store w) = ∅ → k_down (store w) = ∅ → once w ≠ 1 →
  go_to w = (Raise RedisError, mkWorld (store w) 1 [] (writes w)) ∧
  ∀ n, ticks n (after go_to w) = mkWorld (store w) 1 [] (writes w).
Proof.
  intros Hw Hs Hu Hd Ho.
  assert (go_to w = (Raise RedisError, mkWorld (store w) 1 [] (writes w))) as Hgo.
  { destruct (elevator_state_hash _ _ _ Hs) as (h & f & Hh & Hf & Hint & Hst).
    assert (h ≠ ∅) as Hne by (intros ->; by rewrite lookup_empty in Hf).
    apply Z.eqb_neq in Ho.
    destruct w as [s o fs tr]. simpl in *. subst fs.
    unfold go_to, go_to_body, try_except. unfold bind at 1.
    rewrite (get_current_state_two_commands s o _ tr h) by done.
    unfold subscript at 1. rewrite Hf. unfold bind at 1, ret at 1.
    unfold int_of. rewrite Hint. unfold bind at 1, ret at 1.
    unfold subscript. rewrite Hst. unfold bind at 1, ret at 1.
    unfold dispatch. unfold bind at 1.
    rewrite choose_empty_queues by done.
    unfold settle, set_current_state. run. by rewrite Ho. }
  split; [done|]. unfold after. rewrite Hgo. simpl.
  intros n. induction n as [|n IH]; [done|].
  simpl. unfold after at 1. by rewrite (tick_settled _ cf dir).
Qed.

Lemma failed_idle_write_is_not_retried_witness :
  elevator_state (store (ticks 3 (after go_to world_4_up_failing_write)))
    = Some (4, "up") ∧
  writes (ticks 3 (after go_to world_4_up_failing_write)) = [].
Proof.
  destruct (failed_idle_write_is_not_retried world_4_up_failing_write 4 "up")
    as [_ H].
  - reflexivity.
  - reflexivity.
  - reflexivity.
  - reflexivity.
  - simpl. lia.
  - rewrite (H 3%nat). split; reflexivity.
Defined.

(** X23. A call from outside is not atomic.  When the store accepts the
    read of the floor and the insertion into the queue and fails at recording
    the direction, [call] raises [RedisError] (status 500 to the caller of
    [POST /{floor}/up]) although the floor is queued, and the directions
    on record are as before: none is recorded for this call. *)
Theorem hall_call_failing_at_record_still_queues (w : World) (floor cf : Z)
    (direction : string) (fs : list bool) :
  faults w = false :: false :: true :: fs →
  current_floor_of (store w) = Some cf → floor ≠ cf → direction ≠ "" →
  1 <= floor →
  let w' := after (hall floor direction) w in
  outcome (call floor (Some direction)) w = Raise RedisError ∧
  outcome (hall floor direction) w = Raise (HTTPException 500) ∧
  (floor ∈ k_up (store w') ∨ floor ∈ k_down (store w')) ∧
  k_intended (store w') = k_intended (store w) ∧
  faults w' = fs.
Proof.
  intros Hw Hcf Hneq Hd Hf w'. subst w'.
  assert (call floor (Some direction) w =
    (Raise RedisError,
     mkWorld (mkRedis (k_state (store w)) (k_current_floor (store w))
                (if floor >? cf then {[floor]} ∪ k_up (store w) else k_up (store w))
                (if floor >? cf then k_down (store w) else {[floor]} ∪ k_down (store w))
                (k_intended (store w)))
             0 fs (writes w))) as Hcall.
  { apply truthy_Some in Hd.
    destruct w as [s o fs' tr]. destruct s. simpl in *. subst fs'.
    unfold call, call_body, get_current_floor, add_floor. run.
    unfold current_floor_of in Hcf. simpl in Hcf.
    destruct k_current_floor0 as [v|]; simpl in *.
    - unfold truthy in *. destruct (negb (String.eqb v "")); simpl in *.
      + unfold int_of. rewrite Hcf. unfold ret. simpl. rewrite Hd. simpl.
        destruct (Z.gtb_spec floor cf); simpl; [done|].
        destruct (Z.ltb_spec floor cf); simpl; [done|lia].
      + simplify_eq. rewrite Hd. simpl.
        destruct (Z.gtb_spec floor 1); simpl; [done|].
        destruct (Z.ltb_spec floor 1); simpl; [done|lia].
    - simplify_eq. unfold truthy in *. rewrite Hd. simpl.
      destruct (Z.gtb_spec floor 1); simpl; [done|].
      destruct (Z.ltb_spec floor 1); simpl; [done|lia]. }
  assert (hall floor direction w =
    (Raise (HTTPException 500), snd (call floor (Some direction) w))) as Hhall.
  { unfold hall, try_except, bind. destruct (Z.ltb_spec floor 1); [lia|].
    unfold ret at 1. by rewrite Hcall. }
  unfold outcome, after. rewrite Hhall, Hcall. cbn [fst snd store faults k_up k_down k_intended].
  split_and!; try done.
  destruct (floor >? cf); [left|right]; apply elem_of_union; left;
    by apply elem_of_singleton.
Qed.

Lemma hall_call_failing_at_record_still_queues_witness :
  outcome (hall 9 "down")
    (mkWorld (redis_at 5 "idle" ∅ ∅ ∅) 0 [false; false; true] [])
    = Raise (HTTPException 500) ∧
  (9 ∈ k_up (store (after (hall 9 "down")
       (mkWorld (redis_at 5 "idle" ∅ ∅ ∅) 0 [false; false; true] []))) ∨
   9 ∈ k_down (store (after (hall 9 "down")
       (mkWorld (redis_at 5 "idle" ∅ ∅ ∅) 0 [false; false; true] [])))).
Proof.
  destruct (hall_call_failing_at_record_still_queues
              (mkWorld (redis_at 5 "idle" ∅ ∅ ∅) 0 [false; false; true] [])
              9 5 "down" []) as (_ & H1 & H2 & _).
  - reflexivity.
  - reflexivity.
  - lia.
  - discriminate.
  - lia.
  - split; [exact H1 | exact H2].
Defined.

(** ** The lookup of the next floor *)

(** X24. [get_next_floor] takes what it returns.  On a reliable store the
    lookup in 'up' returns the smallest member at or above the current floor
    and removes it from 'up' only; the lookup in 'down' returns the largest
    member at or below the current floor (the members of 'down' being 0 or
    more) and removes it from 'down' only; when there is no such member both
    queues stay as they are.  For any other queue name it returns [None]
    without issuing a command, on every store. *)
Theorem get_next_floor_takes_what_it_returns (w : World) (cf : Z) :
  faults w = [] →
  (∃ o, outcome (get_next_floor "up" cf) w = Ok o ∧
        smallest_from (k_up (store w)) cf o ∧
        k_up (store (after (get_next_floor "up" cf) w))
          = from_option (fun t => k_up (store w) ∖ {[t]}) (k_up (store w)) o ∧
        k_down (store (after (get_next_floor "up" cf) w)) = k_down (store w)) ∧
  ((∀ m, m ∈ k_down (store w) → 0 <= m) →
   ∃ o, outcome (get_next_floor "down" cf) w = Ok o ∧
        largest_upto (k_down (store w)) cf o ∧
        k_down (store (after (get_next_floor "down" cf) w))
          = from_option (fun t => k_down (store w) ∖ {[t]}) (k_down (store w)) o ∧
        k_up (store (after (get_next_floor "down" cf) w)) = k_up (store w)) ∧
  (∀ direction w0, direction ≠ "up" → direction ≠ "down" →
     get_next_floor direction cf w0 = (Ok None, w0)).
Proof.
  intros Hw. split_and!.
  - exists (nearest_up (k_up (store w)) cf).
    unfold outcome, after. rewrite get_next_floor_up by done.
    pose proof (nearest_up_spec (k_up (store w)) cf) as Hspec.
    by destruct (nearest_up _ _).
  - intros Hpos. exists (nearest_down (k_down (store w)) cf).
    unfold outcome, after. rewrite get_next_floor_down by done.
    pose proof (nearest_down_spec (k_down (store w)) cf Hpos) as Hspec.
    by destruct (nearest_down _ _).
  - intros direction w0 Hu Hd. unfold get_next_floor.
    destruct (String.eqb_spec direction "up"); [done|].
    by destruct (String.eqb_spec direction "down").
Qed.

Lemma get_next_floor_takes_what_it_returns_witness :
  ∃ o, outcome (get_next_floor "up" 5) world_5_up_scan = Ok o ∧
       smallest_from (k_up (store world_5_up_scan)) 5 o ∧
       k_up (store (after (get_next_floor "up" 5) world_5_up_scan))
         = from_option (fun t => k_up (store world_5_up_scan) ∖ {[t]})
                       (k_up (store world_5_up_scan)) o ∧
       k_down (store (after (get_next_floor "up" 5) world_5_up_scan))
         = k_down (store world_5_up_scan).
Proof.
  exact (proj1 (get_next_floor_takes_what_it_returns world_5_up_scan 5 eq_refl)).
Defined.

Lemma get_next_floor_up_two_commands cf s o fs tr :
  get_next_floor "up" cf (mkWorld s o (false :: false :: fs) tr) =
  match nearest_up (k_up s) cf with
  | Some t => (Ok (Some t), mkWorld (set_queues (k_up s ∖ {[t]}) (k_down s) s) o fs tr)
  | None => (Ok None, mkWorld s o (false :: fs) tr)
  end.
Proof.
  destruct s. unfold nearest_up, get_next_floor. run.
  destruct (filter _ _) as [|x t]; reflexivity.
Qed.

Lemma choose_up_two_commands cf t s o fs tr :
  nearest_up (k_up s) cf = Some t →
  choose "up" cf (mkWorld s o (false :: false :: fs) tr) =
  (Ok (Some t, "up"), mkWorld (set_queues (k_up s ∖ {[t]}) (k_down s) s) o fs tr).
Proof.
  intros Eu. unfold choose. simpl. unfold bind.
  by rewrite get_next_floor_up_two_commands, Eu.
Qed.

Lemma travel_up_fails_at_once cf t s o fs tr :
  cf <= t →
  travel cf t "up" (mkWorld s o (true :: fs) tr) =
  (Raise RedisError, mkWorld s o fs tr).
Proof.
  intros Hle. unfold travel. simpl. unfold range_up.
  destruct (Z.to_nat (t + 1 - cf)) as [|n] eqn:En; [lia|].
  simpl. unfold bind, set_current_floor, redis_set_current_floor, command.
  by simpl.
Qed.

(** X25. The selected floor leaves its queue before the cab moves, so a
    failure on the way loses the request.  With direction 'up', a candidate
    [t] in the up queue and a store that fails at the first write of the
    journey (the fifth command of the tick), [go_to] raises [RedisError]; the
    cab has not moved, neither in 'state' nor in 'current_floor', and [t] is
    in no queue any more. *)
Theorem failure_on_the_way_loses_the_request (w : World) (cf t : Z) :
  faults w = [false; false; false; false; true] →
  elevator_state (store w) = Some (cf, "up") →
  smallest_from (k_up (store w)) cf (Some t) →
  t ∉ k_down (store w) →
  let w' := after go_to w in
  outcome go_to w = Raise RedisError ∧
  k_state (store w') = k_state (store w) ∧
  k_current_floor (store w') = k_current_floor (store w) ∧
  k_up (store w') = k_up (store w) ∖ {[t]} ∧
  (t ∉ k_up (store w')) ∧ (t ∉ k_down (store w')) ∧
  faults w' = [].
Proof.
  intros Hw Hs Ht Hdown w'. subst w'.
  assert (nearest_up (k_up (store w)) cf = Some t) as Eu.
  { symmetry. apply (smallest_from_unique _ _ _ _ Ht (nearest_up_spec _ _)). }
  destruct Ht as (_ & Hle & _).
  assert (go_to w =
    (Raise RedisError,
     mkWorld (set_queues (k_up (store w) ∖ {[t]}) (k_down (store w)) (store w))
             (once w) [] (writes w))) as Hgo.
  { destruct (elevator_state_hash _ _ _ Hs) as (h & f & Hh & Hf & Hint & Hst).
    assert (h ≠ ∅) as Hne by (intros ->; by rewrite lookup_empty in Hf).
    destruct w as [s o fs tr]. simpl in *. subst fs.
    unfold go_to, go_to_body, try_except. unfold bind at 1.
    rewrite (get_current_state_two_commands s o _ tr h) by done.
    unfold subscript at 1. rewrite Hf. unfold bind at 1, ret at 1.
    unfold int_of. rewrite Hint. unfold bind at 1, ret at 1.
    unfold subscript. rewrite Hst. unfold bind at 1, ret at 1.
    unfold dispatch. unfold bind at 1.
    rewrite (choose_up_two_commands cf t s o [true] tr) by done.
    cbv beta iota. unfold bind at 1.
    by rewrite (travel_up_fails_at_once cf t) by done. }
  unfold outcome, after. rewrite Hgo. cbn [fst snd store faults].
  unfold set_queues. cbn [k_state k_current_floor k_up k_down].
  split_and!; try done.
  apply not_elem_of_difference. right. by apply elem_of_singleton.
Qed.

Lemma failure_on_the_way_loses_the_request_witness :
  outcome go_to world_5_up_failing_travel = Raise RedisError ∧
  k_up (store (after go_to world_5_up_failing_travel))
    = k_up (store world_5_up_failing_travel) ∖ {[8]}.
Proof.
  destruct (failure_on_the_way_loses_the_request world_5_up_failing_travel 5 8)
    as (H1 & _ & _ & H2 & _).
  - reflexivity.
  - reflexivity.
  - simpl. split_and!; [by apply elem_of_singleton | lia |].
    intros m ->%elem_of_singleton. lia.
  - simpl. apply not_elem_of_empty.
  - split; [exact H1 | exact H2].
Defined.
